(** * A first-fit free-list allocator over one mmap'ed arena (my_malloc.cpp)

    The allocator keeps a singly linked list of free-block descriptors
    ([node_t]) inside the arena it manages, and rewrites a descriptor in
    place as an allocated header ([header_t]) when it hands a block out.
    Since the code reaches its data only through pointer casts and pointer
    arithmetic on [char*], the embedding works on a flat byte-addressed
    memory: every field access of the source is a load or a store of the
    field's bytes at the field's address.

    Conventions.  Pointers and [size_t] values are integers in [Z]; the
    wrap-around of [size_t] arithmetic and of pointer arithmetic is written
    out.  [NULL] is 0.  Each [while] loop of the source is a [Fixpoint] on a
    fuel argument that counts loop tests; the theorems give a fuel that is
    enough.  Functions with out-parameters return the values they leave in
    them. *)

From Stdlib Require Import ZArith List Lia Bool String Ascii DecimalString.
Import ListNotations.
Local Open Scope Z_scope.

(** ** Byte-addressed memory

    A memory maps every address to a byte.  Multi-byte values are stored
    little-endian.  The model does not track which pages are mapped: an
    access outside the arena (undefined behaviour in C, a fault in
    practice) reads or writes the flat memory like any other.  Where a
    store of the program can leave the block it works on, the statement
    carries the arena as a hypothesis ([in_arena], from the log of mapping
    calls). *)

Module Mem.

Definition mem := Z -> Z.

Definition set_byte (a b : Z) (m : mem) : mem :=
  fun x => if x =? a then b mod 256 else m x.

Fixpoint load (n : nat) (a : Z) (m : mem) : Z :=
  match n with
  | O => 0
  | S k => (m a) mod 256 + 256 * load k (a + 1) m
  end.

Fixpoint store (n : nat) (a v : Z) (m : mem) : mem :=
  match n with
  | O => m
  | S k => store k (a + 1) (v / 256) (set_byte a v m)
  end.

(** [zero_fill a len m]: the bytes a fresh anonymous mapping of [len] bytes
    at [a] shows (MAP_ANON pages read as zero). *)
Definition zero_fill (a len : Z) (m : mem) : mem :=
  fun x => if (a <=? x) && (x <? a + len) then 0 else m x.

End Mem.

(** ** What the program is compiled against *)

(** Modelled from the spec: the header my_malloc.h, which declares [node_t],
    [header_t], [HEAP_SIZE] and [MAGIC], is not among the sources.  The spec
    gives a free descriptor the attributes size and next, and an allocated
    header the attributes size and tag, with one overhead per struct.  The
    record keeps every number the header fixes as a parameter: the width of
    [size_t] and of a pointer, the two struct sizes, the offsets of the
    second members (the first member, size, is at offset 0 in both), the
    width of the tag, the sentinel and the arena capacity.  [mmap_addr] is
    the address the operating system answers to the program's first
    [mmap]. *)
Record env := {
  word_bytes : nat;
  magic_bytes : nat;
  sizeof_node_t : Z;
  sizeof_header_t : Z;
  off_next : Z;
  off_magic : Z;
  MAGIC : Z;
  HEAP_SIZE : Z;
  mmap_addr : Z
}.

(** [size_t] arithmetic is modulo [wmod]. *)
Definition wmod (E : env) : Z := 256 ^ Z.of_nat (word_bytes E).

Record env_ok (E : env) : Prop := {
  ok_word : (0 < word_bytes E)%nat;
  ok_next_lo : Z.of_nat (word_bytes E) <= off_next E;
  ok_next_hi : off_next E + Z.of_nat (word_bytes E) <= sizeof_node_t E;
  ok_magic_lo : Z.of_nat (word_bytes E) <= off_magic E;
  ok_magic_hi : off_magic E + Z.of_nat (magic_bytes E) <= sizeof_header_t E;
  ok_magic : 0 <= MAGIC E < 256 ^ Z.of_nat (magic_bytes E);
  ok_node_lt : sizeof_node_t E < HEAP_SIZE E;
  ok_header_lt : sizeof_header_t E < wmod E;
  ok_arena_lo : 0 < mmap_addr E;
  ok_arena_hi : mmap_addr E + HEAP_SIZE E <= wmod E
}.

(** Modelled from the spec: one instance of the missing header, used for
    the concrete runs below.  It is the usual 64-bit layout, two 8-byte
    members in each struct, with the one page of memory the comment on
    [heap] speaks of as arena. *)
Definition lp64 : env := {|
  word_bytes := 8; magic_bytes := 8;
  sizeof_node_t := 16; sizeof_header_t := 16;
  off_next := 8; off_magic := 8;
  MAGIC := 3735928559; HEAP_SIZE := 4096;
  mmap_addr := 1048576
|}.

(** ** Allocator state and results *)

Inductive syscall : Type :=
| Mmap (addr len : Z)
| Munmap (addr len : Z).

(** [head] is the global of the source ([0] is [NULL]); [oscalls] logs the
    mapping calls the program has made, oldest first. *)
Record state := {
  head : Z;
  mem : Mem.mem;
  oscalls : list syscall
}.

(** A call returns a value and a state, dies on a failed [assert] (the state
    at that point is kept), or is still looping when the fuel is gone. *)
Inductive result (A : Type) : Type :=
| Done (a : A) (s : state)
| Aborted (s : state)
| OutOfFuel.
Arguments Done {A} a s.
Arguments Aborted {A} s.
Arguments OutOfFuel {A}.

Definition is_mmap (c : syscall) : bool :=
  match c with Mmap _ _ => true | Munmap _ _ => false end.

(** The operating system's side of the two calls.  The program cannot
    choose where [mmap(NULL, ...)] maps: [mmap_answer] below hands out a
    fresh range for each call, one after the other from [mmap_addr], so an
    answer never overlaps a mapping that may still be live.  [munmap]
    follows POSIX: an address that is not a multiple of the page size makes
    the call fail (EINVAL) and unmaps nothing; otherwise every page of the
    range is unmapped.  [live_pages page log] replays a log of calls and
    gives the pages (by number) that are mapped after it. *)
Definition pages_of (page a len : Z) : list Z :=
  map (fun i => a / page + Z.of_nat i)
      (seq 0 (Z.to_nat ((a + len - 1) / page - a / page + 1))).

Definition os_step (page : Z) (pages : list Z) (c : syscall) : list Z :=
  match c with
  | Mmap a len => pages ++ pages_of page a len
  | Munmap a len =>
      if a mod page =? 0
      then filter (fun p => negb (existsb (Z.eqb p) (pages_of page a len))) pages
      else pages
  end.

Definition live_pages (page : Z) (log : list syscall) : list Z :=
  fold_left (os_step page) log [].

(** The range of the mapping made last, the arena the allocator works in. *)
Fixpoint arena_of (log : list syscall) : option (Z * Z) :=
  match log with
  | [] => None
  | c :: r =>
      match arena_of r with
      | Some x => Some x
      | None => match c with Mmap a len => Some (a, len) | Munmap _ _ => None end
      end
  end.

(** The bytes [[lo, hi)] lie in that arena. *)
Definition in_arena (log : list syscall) (lo hi : Z) : bool :=
  match arena_of log with
  | Some (a, len) => (a <=? lo) && (hi <=? a + len)
  | None => false
  end.

Section Allocator.

Variable E : env.

Local Abbreviation W := (wmod E).
Local Abbreviation WB := (word_bytes E).
Local Abbreviation node_sz := (sizeof_node_t E).
Local Abbreviation hdr_sz := (sizeof_header_t E).

(** Field accesses: [p->size], [p->next], [h->magic]. *)
Definition get_size (p : Z) (m : Mem.mem) : Z := Mem.load WB p m.
Definition get_next (p : Z) (m : Mem.mem) : Z := Mem.load WB (p + off_next E) m.
Definition get_magic (h : Z) (m : Mem.mem) : Z :=
  Mem.load (magic_bytes E) (h + off_magic E) m.
Definition set_size (p v : Z) (m : Mem.mem) : Mem.mem := Mem.store WB p v m.
Definition set_next (p v : Z) (m : Mem.mem) : Mem.mem :=
  Mem.store WB (p + off_next E) v m.
Definition set_magic (h v : Z) (m : Mem.mem) : Mem.mem :=
  Mem.store (magic_bytes E) (h + off_magic E) v m.

(** [(char * )p + n] with [n] a [size_t]. *)
Definition ptr_add (p n : Z) : Z := (p + n) mod W.

Definition mmap_answer (log : list syscall) : Z :=
  mmap_addr E + Z.of_nat (List.length (filter is_mmap log)) * HEAP_SIZE E.

Definition heap (s : state) : Z * state :=
  if head s =? 0 then
    let hd := mmap_answer (oscalls s) in
    let m0 := Mem.zero_fill hd (HEAP_SIZE E) (mem s) in
    let m1 := set_size hd ((HEAP_SIZE E - node_sz) mod W) m0 in
    let m2 := set_next hd 0 m1 in
    (hd, {| head := hd; mem := m2;
            oscalls := oscalls s ++ [Mmap hd (HEAP_SIZE E)] |})
  else (head s, s).

(** [munmap] goes into the log with the address the code passes, [head];
    what the call does to the mappings is read off the log by [live_pages].
    The flat memory itself keeps no mapping information. *)
Definition reset_heap (s : state) : state :=
  if negb (head s =? 0) then
    snd (heap {| head := 0; mem := mem s;
                 oscalls := oscalls s ++ [Munmap (head s) (HEAP_SIZE E)] |})
  else s.

Definition free_list (s : state) : Z * state := (head s, s).

Fixpoint available_memory_loop (fuel : nat) (n p : Z) (m : Mem.mem) : option Z :=
  match fuel with
  | O => None
  | S k =>
      if p =? 0 then Some n
      else available_memory_loop k ((n + get_size p m) mod W) (get_next p m) m
  end.

Definition available_memory (fuel : nat) (s : state) : result Z :=
  let (p, s1) := heap s in
  match available_memory_loop fuel 0 p (mem s1) with
  | Some n => Done n s1
  | None => OutOfFuel
  end.

(** [count] is an [int] in the source; the model counts in [Z] and leaves
    the overflow of [int] (more than 2^31 nodes) out. *)
Fixpoint number_of_free_nodes_loop (fuel : nat) (count p : Z) (m : Mem.mem)
  : option Z :=
  match fuel with
  | O => None
  | S k =>
      if p =? 0 then Some count
      else number_of_free_nodes_loop k (count + 1) (get_next p m) m
  end.

Definition number_of_free_nodes (fuel : nat) (s : state) : result Z :=
  let (p, s1) := heap s in
  match number_of_free_nodes_loop fuel 0 p (mem s1) with
  | Some n => Done n s1
  | None => OutOfFuel
  end.

(** ["%zd"] prints the word as a signed decimal. *)
Definition zd (v : Z) : string :=
  NilZero.string_of_int (Z.to_int (if v <? W / 2 then v else v - W)).

Fixpoint print_free_list_loop (fuel : nat) (out : string) (p : Z) (m : Mem.mem)
  : option string :=
  match fuel with
  | O => None
  | S k =>
      if p =? 0 then Some out
      else
        let out1 := (out ++ "Free(" ++ zd (get_size p m) ++ ")")%string in
        let p1 := get_next p m in
        let out2 := if negb (p1 =? 0) then (out1 ++ "->")%string else out1 in
        print_free_list_loop k out2 p1 m
  end.

(** The value returned is the text sent to stdout. *)
Definition print_free_list (fuel : nat) (s : state) : result string :=
  let (p, s1) := heap s in
  match print_free_list_loop fuel EmptyString p (mem s1) with
  | Some out => Done (out ++ String (ascii_of_nat 10) EmptyString)%string s1
  | None => OutOfFuel
  end.

(** The test of [find_free], in [size_t] arithmetic on both sides. *)
Definition fits (size sz : Z) : bool :=
  (size + hdr_sz) mod W <=? (sz + node_sz) mod W.

(** [found] and [previous] are the contents of the two out-parameters: they
    come back as they went in when the loop ends without a block. *)
Fixpoint find_free_loop (fuel : nat) (size curr prev found previous : Z)
  (m : Mem.mem) : option (Z * Z) :=
  match fuel with
  | O => None
  | S k =>
      if curr =? 0 then Some (found, previous)
      else if fits size (get_size curr m) then Some (curr, prev)
      else find_free_loop k size (get_next curr m) curr found previous m
  end.

Definition find_free (fuel : nat) (size found previous : Z) (s : state)
  : result (Z * Z) :=
  let (curr, s1) := heap s in
  match find_free_loop fuel size curr 0 found previous (mem s1) with
  | Some fp => Done fp s1
  | None => OutOfFuel
  end.

(** [split] returns the new [*free_block] and [*allocated]. *)
Definition split (size previous free_block : Z) (s : state) : result (Z * Z) :=
  if free_block =? 0 then Aborted s
  else
    let original := free_block in
    let actual_size := (size + hdr_sz) mod W in
    let free_block := ptr_add free_block actual_size in
    let m1 := set_size free_block
                ((get_size original (mem s) - actual_size) mod W) (mem s) in
    let m2 := set_next free_block (get_next original m1) m1 in
    let hd := if previous =? 0 then free_block else head s in
    let m3 := if previous =? 0 then m2 else set_next previous free_block m2 in
    let allocated := original in
    let m4 := set_size allocated size m3 in
    let m5 := set_magic allocated (MAGIC E) m4 in
    Done (free_block, allocated)
         {| head := hd; mem := m5; oscalls := oscalls s |}.

Definition my_malloc (fuel : nat) (size : Z) (s : state) : result Z :=
  match find_free fuel size 0 0 s with
  | Done (found, prev) s1 =>
      if found =? 0 then Done 0 s1
      else
        match split size prev found s1 with
        | Done (_, allocated) s2 => Done (ptr_add allocated hdr_sz) s2
        | Aborted s2 => Aborted s2
        | OutOfFuel => OutOfFuel
        end
  | Aborted s1 => Aborted s1
  | OutOfFuel => OutOfFuel
  end.

Fixpoint coalesce (fuel : nat) (temp : Z) (m : Mem.mem) : option Mem.mem :=
  match fuel with
  | O => None
  | S k =>
      if temp =? 0 then Some m
      else if get_next temp m =? 0 then Some m
      else
        let block_size := (get_size temp m + node_sz) mod W in
        if ptr_add temp block_size =? get_next temp m then
          let m1 := set_size temp
                      ((get_size temp m
                        + (get_size (get_next temp m) m + node_sz) mod W) mod W)
                      m in
          let m2 := set_next temp (get_next (get_next temp m1) m1) m1 in
          coalesce k temp m2
        else coalesce k (get_next temp m) m
  end.

Definition my_free (fuel : nat) (allocated : Z) (s : state) : result unit :=
  let h := (allocated - hdr_sz) mod W in
  if negb (get_magic h (mem s) =? MAGIC E) then Aborted s
  else
    let temp := h in
    let m1 := set_size temp (get_size h (mem s)) (mem s) in
    let m2 := set_next temp (head s) m1 in
    match coalesce fuel temp m2 with
    | Some m3 => Done tt {| head := temp; mem := m3; oscalls := oscalls s |}
    | None => OutOfFuel
    end.

(** ** The free list as a list

    [flist m p l]: following [next] from [p] in memory [m] visits exactly
    the descriptors [l] (address and size field of each, in list order) and
    ends on [NULL]. *)
Fixpoint flist (m : Mem.mem) (p : Z) (l : list (Z * Z)) : Prop :=
  match l with
  | [] => p = 0
  | (a, sz) :: r =>
      p = a /\ a <> 0 /\ get_size a m = sz /\ flist m (get_next a m) r
  end.

(** Two descriptors at [a] and [b] share no byte. *)
Definition apart (a b : Z) : bool :=
  (a + node_sz <=? b) || (b + node_sz <=? a).

Fixpoint no_overlap (l : list Z) : bool :=
  match l with
  | [] => true
  | a :: r => forallb (apart a) r && no_overlap r
  end.

(** The descriptor a list walk reaches last, [dflt] for an empty walk. *)
Definition last_addr (l : list (Z * Z)) (dflt : Z) : Z := last (map fst l) dflt.

Definition sum_sizes (l : list (Z * Z)) : Z := fold_right (fun x acc => snd x + acc) 0 l.

(** The coalescer in the spec's words, on lists: while the current block
    [(a, s)] ends where its list successor starts, it absorbs the
    successor's size and descriptor and is looked at again; otherwise the
    walk moves on to the successor; it ends at the block without successor.
    [coalesce] above is the source's loop; [coalesce_refines] compares the
    two. *)
Fixpoint spec_coalesce_from (a s : Z) (rest : list (Z * Z)) : list (Z * Z) :=
  match rest with
  | [] => [(a, s)]
  | (b, t) :: r =>
      if ptr_add a ((s + node_sz) mod W) =? b
      then spec_coalesce_from a ((s + (t + node_sz) mod W) mod W) r
      else (a, s) :: spec_coalesce_from b t r
  end.

Definition spec_coalesce (l : list (Z * Z)) : list (Z * Z) :=
  match l with
  | [] => []
  | (a, s) :: r => spec_coalesce_from a s r
  end.

(** The descriptor at [c] shares no byte with the range [[lo, hi)]. *)
Definition clear_of (lo hi c : Z) : bool := (c + node_sz <=? lo) || (hi <=? c).

(** Bytes the blocks of a list take up, descriptors included. *)
Definition footprint (l : list (Z * Z)) : Z :=
  fold_right (fun x acc => snd x + node_sz + acc) 0 l.

(** A block the test of [find_free] turns down. *)
Definition unfit (size : Z) (x : Z * Z) : bool := negb (fits size (snd x)).

(** [covered l x]: byte [x] belongs to a descriptor of [l]. *)
Definition covered (l : list (Z * Z)) (x : Z) : Prop :=
  exists a, In a (map fst l) /\ a <= x < a + node_sz.

(** The text of one list, as [print_free_list] lays it out: one
    [Free(size)] per block, [->] between two blocks. *)
Definition show_block (x : Z * Z) : string :=
  ("Free(" ++ zd (snd x) ++ ")")%string.

Definition show_list (l : list (Z * Z)) : string :=
  String.concat "->" (map show_block l).

(** No block of the list ends where its list successor starts. *)
Fixpoint no_adjacent (l : list (Z * Z)) : bool :=
  match l with
  | [] => true
  | (a, s) :: r =>
      match r with
      | [] => true
      | (b, _) :: _ => negb (ptr_add a ((s + node_sz) mod W) =? b)
      end && no_adjacent r
  end.

End Allocator.

(** Projections of a result. *)
Definition value {A} (r : result A) : option A :=
  match r with Done a _ => Some a | _ => None end.
Definition final {A} (r : result A) : option state :=
  match r with Done _ s => Some s | Aborted s => Some s | OutOfFuel => None end.

Definition state_of {A} (r : result A) (dflt : state) : state :=
  match final r with Some s => s | None => dflt end.

(** ** Concrete states on the 64-bit target

    [s_init]: nothing mapped yet.  [s_fresh]: the arena as [heap()] first
    sets it up.  [s_a], [s_b], [s_c]: after [my_malloc(100)] twice and the
    release of the first block, which leaves the list
    [Free(100)->Free(3848)] with the small block at the head. *)
Definition s_init : state := {| head := 0; mem := fun _ => 0; oscalls := [] |}.
Definition s_fresh : state := snd (heap lp64 s_init).
Definition s_a : state := state_of (my_malloc lp64 4 100 s_init) s_init.
Definition s_b : state := state_of (my_malloc lp64 4 100 s_a) s_init.
Definition s_c : state := state_of (my_free lp64 4 1048592 s_b) s_init.

(** [s_d], [s_e]: [my_malloc(200)] in [s_c], served by the second block of
    the list, and the release of that block. *)
Definition s_d : state := state_of (my_malloc lp64 4 200 s_c) s_init.
Definition s_e : state := state_of (my_free lp64 4 1048824 s_d) s_init.

(** The memory of [s_b] once the second allocated block, at 1048692, has
    been given the head 1048808 as its [next]. *)
Definition m_pushed : Mem.mem := set_next lp64 1048692 1048808 (mem s_b).

(** ** Facts about loads and stores *)

Module MemFacts.
Import Mem.

Lemma store_outside n : forall a v m x,
  x < a \/ a + Z.of_nat n <= x -> store n a v m x = m x.
Proof.
  induction n as [|k IH]; intros a v m x Hx; cbn [store]; [reflexivity|].
  rewrite IH by lia. unfold set_byte.
  destruct (Z.eqb_spec x a); [lia | reflexivity].
Qed.

Lemma load_ext n : forall a m m',
  (forall x, a <= x < a + Z.of_nat n -> m x = m' x) ->
  load n a m = load n a m'.
Proof.
  induction n as [|k IH]; intros a m m' H; cbn [load]; [reflexivity|].
  rewrite (H a) by lia. f_equal. f_equal. apply IH. intros x Hx. apply H. lia.
Qed.

Lemma load_range n : forall a m, 0 <= load n a m < 256 ^ Z.of_nat n.
Proof.
  induction n as [|k IH]; intros a m.
  - simpl. lia.
  - change (load (S k) a m) with (m a mod 256 + 256 * load k (a + 1) m).
    rewrite Nat2Z.inj_succ, Z.pow_succ_r by lia.
    specialize (IH (a + 1) m).
    assert (0 <= m a mod 256 < 256) by (apply Z.mod_pos_bound; lia).
    nia.
Qed.

Lemma load_store_same n : forall a v m,
  load n a (store n a v m) = v mod 256 ^ Z.of_nat n.
Proof.
  induction n as [|k IH]; intros a v m.
  - simpl. now rewrite Z.mod_1_r.
  - change (load (S k) a (store (S k) a v m))
      with (store k (a + 1) (v / 256) (set_byte a v m) a mod 256
            + 256 * load k (a + 1) (store k (a + 1) (v / 256) (set_byte a v m))).
    rewrite IH, store_outside by lia.
    unfold set_byte. rewrite Z.eqb_refl, Z.mod_mod by lia.
    rewrite Nat2Z.inj_succ, Z.pow_succ_r by lia.
    rewrite Z.rem_mul_r by lia. reflexivity.
Qed.

Lemma load_store_disjoint n k a b v m :
  a + Z.of_nat n <= b \/ b + Z.of_nat k <= a ->
  load n a (store k b v m) = load n a m.
Proof.
  intros H. apply load_ext. intros x Hx. apply store_outside. lia.
Qed.

End MemFacts.

(** ** Basic facts about fields and the free list *)

Section Proofs.

Variable E : env.
Hypothesis HE : env_ok E.

Local Abbreviation W := (wmod E).
Local Abbreviation WB := (word_bytes E).
Local Abbreviation node_sz := (sizeof_node_t E).
Local Abbreviation hdr_sz := (sizeof_header_t E).

Lemma W_pos : 0 < W.
Proof. unfold wmod. apply Z.pow_pos_nonneg; lia. Qed.

Lemma get_size_range p m : 0 <= get_size E p m < W.
Proof. apply MemFacts.load_range. Qed.

Lemma get_next_range p m : 0 <= get_next E p m < W.
Proof. apply MemFacts.load_range. Qed.

Lemma get_size_set_size p v m : get_size E p (set_size E p v m) = v mod W.
Proof. apply MemFacts.load_store_same. Qed.

Lemma get_next_set_next p v m : get_next E p (set_next E p v m) = v mod W.
Proof. apply MemFacts.load_store_same. Qed.

Lemma get_magic_set_magic h v m :
  get_magic E h (set_magic E h v m) = v mod 256 ^ Z.of_nat (magic_bytes E).
Proof. apply MemFacts.load_store_same. Qed.

Lemma get_size_set_next p v m : get_size E p (set_next E p v m) = get_size E p m.
Proof.
  apply MemFacts.load_store_disjoint. pose proof (ok_next_lo E HE). lia.
Qed.

Lemma get_next_set_size p v m : get_next E p (set_size E p v m) = get_next E p m.
Proof.
  apply MemFacts.load_store_disjoint. pose proof (ok_next_lo E HE). lia.
Qed.

Lemma get_size_set_magic h v m : get_size E h (set_magic E h v m) = get_size E h m.
Proof.
  apply MemFacts.load_store_disjoint. pose proof (ok_magic_lo E HE). lia.
Qed.

(** Writes to one struct leave the bytes outside it alone. *)
Lemma set_size_outside p v m x :
  x < p \/ p + Z.of_nat WB <= x -> set_size E p v m x = m x.
Proof. apply MemFacts.store_outside. Qed.

Lemma set_next_outside p v m x :
  x < p \/ p + node_sz <= x -> set_next E p v m x = m x.
Proof.
  intros H. apply MemFacts.store_outside.
  pose proof (ok_next_lo E HE). pose proof (ok_next_hi E HE). lia.
Qed.

Lemma set_magic_outside h v m x :
  x < h \/ h + hdr_sz <= x -> set_magic E h v m x = m x.
Proof.
  intros H. apply MemFacts.store_outside.
  pose proof (ok_magic_lo E HE). pose proof (ok_magic_hi E HE). lia.
Qed.

(** Reads of a descriptor depend on the descriptor's bytes only. *)
Lemma get_size_ext p m m' :
  (forall x, p <= x < p + node_sz -> m x = m' x) ->
  get_size E p m = get_size E p m'.
Proof.
  intros H. apply MemFacts.load_ext. intros x Hx. apply H.
  pose proof (ok_next_lo E HE). pose proof (ok_next_hi E HE). lia.
Qed.

Lemma get_next_ext p m m' :
  (forall x, p <= x < p + node_sz -> m x = m' x) ->
  get_next E p m = get_next E p m'.
Proof.
  intros H. apply MemFacts.load_ext. intros x Hx. apply H.
  pose proof (ok_next_lo E HE). pose proof (ok_next_hi E HE). lia.
Qed.

Lemma flist_ext l : forall m m' p,
  (forall x, covered E l x -> m x = m' x) ->
  flist E m p l -> flist E m' p l.
Proof.
  induction l as [|[a sz] r IH]; intros m m' p Hm Hl; simpl in *; [exact Hl|].
  destruct Hl as (Hp & Ha & Hs & Hr).
  assert (Ha' : forall x, a <= x < a + node_sz -> m x = m' x).
  { intros x Hx. apply Hm. exists a. simpl. auto. }
  repeat split; auto.
  - rewrite <- Hs. symmetry. now apply get_size_ext.
  - rewrite <- (get_next_ext a m m' Ha').
    apply (IH m); auto. intros x (b & Hb & Hx). apply Hm. exists b. simpl. auto.
Qed.

Lemma flist_sizes_range l : forall m p,
  flist E m p l -> Forall (fun x => 0 <= snd x < W) l.
Proof.
  induction l as [|[a sz] r IH]; intros m p Hl; simpl in *; constructor.
  - destruct Hl as (_ & _ & Hs & _). simpl. rewrite <- Hs. apply get_size_range.
  - destruct Hl as (_ & _ & _ & Hr). eapply IH; eauto.
Qed.

(** *** [heap] *)

Lemma heap_initialized s : head s <> 0 -> heap E s = (head s, s).
Proof.
  intros H. unfold heap. destruct (Z.eqb_spec (head s) 0); [contradiction|reflexivity].
Qed.

Lemma heap_fst s : fst (heap E s) = head (snd (heap E s)).
Proof. unfold heap. destruct (head s =? 0); reflexivity. Qed.

Lemma mmap_answer_pos log : 0 < mmap_answer E log.
Proof.
  unfold mmap_answer.
  pose proof (ok_arena_lo E HE). pose proof (ok_node_lt E HE).
  pose proof (ok_next_lo E HE). pose proof (ok_next_hi E HE).
  nia.
Qed.

Lemma heap_head_nonzero s : head (snd (heap E s)) <> 0.
Proof.
  unfold heap. destruct (Z.eqb_spec (head s) 0); cbn [snd head]; [|assumption].
  pose proof (mmap_answer_pos (oscalls s)). lia.
Qed.

Lemma heap_idempotent s : heap E (snd (heap E s)) = heap E s.
Proof.
  rewrite heap_initialized by apply heap_head_nonzero.
  rewrite <- heap_fst. now destruct (heap E s).
Qed.

Lemma arena_size_small : (HEAP_SIZE E - node_sz) mod W = HEAP_SIZE E - node_sz.
Proof.
  apply Z.mod_small.
  pose proof (ok_node_lt E HE). pose proof (ok_arena_lo E HE).
  pose proof (ok_arena_hi E HE). pose proof (ok_next_lo E HE).
  pose proof (ok_next_hi E HE). lia.
Qed.

Lemma heap_fresh s :
  head s = 0 ->
  flist E (mem (snd (heap E s))) (fst (heap E s))
        [(mmap_answer E (oscalls s), HEAP_SIZE E - node_sz)].
Proof.
  intros H. unfold heap. rewrite H. cbn [Z.eqb fst snd mem flist].
  pose proof (mmap_answer_pos (oscalls s)).
  split; [reflexivity|]. split; [lia|]. split.
  - rewrite get_size_set_next, get_size_set_size.
    rewrite Z.mod_mod by (pose proof W_pos; lia). apply arena_size_small.
  - rewrite get_next_set_next. apply Z.mod_0_l. pose proof W_pos; lia.
Qed.

(** *** The read-only loops on a well-formed list *)

Lemma available_memory_loop_flist l : forall fuel n p m,
  flist E m p l -> (List.length l < fuel)%nat -> 0 <= n < W ->
  available_memory_loop E fuel n p m = Some ((n + sum_sizes l) mod W).
Proof.
  induction l as [|[a sz] r IH]; intros fuel n p m Hl Hf Hn;
    (destruct fuel as [|k]; [simpl in Hf; lia|]); simpl in *.
  - subst p. simpl. rewrite Z.add_0_r, Z.mod_small by lia. reflexivity.
  - destruct Hl as (-> & Ha & Hs & Hr).
    destruct (Z.eqb_spec a 0); [contradiction|].
    rewrite (IH k _ _ m Hr) by (try lia; apply Z.mod_pos_bound, W_pos).
    rewrite Hs. rewrite Z.add_mod_idemp_l by (pose proof W_pos; lia).
    f_equal. f_equal. lia.
Qed.

Lemma number_of_free_nodes_loop_flist l : forall fuel c p m,
  flist E m p l -> (List.length l < fuel)%nat ->
  number_of_free_nodes_loop E fuel c p m = Some (c + Z.of_nat (List.length l)).
Proof.
  induction l as [|[a sz] r IH]; intros fuel c p m Hl Hf;
    (destruct fuel as [|k]; [simpl in Hf; lia|]); cbn [number_of_free_nodes_loop flist List.length] in *.
  - subst p. simpl. f_equal. lia.
  - destruct Hl as (-> & Ha & Hs & Hr).
    destruct (Z.eqb_spec a 0); [contradiction|].
    rewrite (IH k _ _ m Hr) by lia. f_equal. lia.
Qed.

Lemma print_free_list_loop_flist l : forall fuel out p m,
  flist E m p l -> (List.length l < fuel)%nat ->
  exists out', print_free_list_loop E fuel out p m = Some out'.
Proof.
  induction l as [|[a sz] r IH]; intros fuel out p m Hl Hf;
    (destruct fuel as [|k]; [simpl in Hf; lia|]); cbn [print_free_list_loop flist List.length] in *.
  - subst p. simpl. eauto.
  - destruct Hl as (-> & Ha & Hs & Hr).
    destruct (Z.eqb_spec a 0); [contradiction|].
    apply (IH k _ _ m Hr). lia.
Qed.

(** *** [find_free] on a well-formed list *)

Lemma last_cons_default {A} (l : list A) : forall a d, last (a :: l) d = last l a.
Proof.
  induction l as [|b l IH]; intros a d; [reflexivity|].
  change (last (a :: b :: l) d) with (last (b :: l) d).
  now rewrite !IH.
Qed.

Lemma find_free_loop_hit l1 : forall fuel size p prev f0 p0 m b sz l2,
  flist E m p (l1 ++ (b, sz) :: l2) ->
  forallb (unfit E size) l1 = true -> fits E size sz = true ->
  (List.length l1 < fuel)%nat ->
  find_free_loop E fuel size p prev f0 p0 m = Some (b, last_addr l1 prev).
Proof.
  induction l1 as [|[a t] r IH]; intros fuel size p prev f0 p0 m b sz l2 Hl Hu Hfit Hf;
    (destruct fuel as [|k]; [simpl in Hf; lia|]);
    cbn [find_free_loop flist app List.length forallb] in *.
  - destruct Hl as (-> & Hb & Hs & _).
    destruct (Z.eqb_spec b 0); [contradiction|].
    rewrite Hs, Hfit. reflexivity.
  - destruct Hl as (-> & Ha & Hs & Hr).
    apply andb_true_iff in Hu. destruct Hu as [Hu1 Hu2].
    unfold unfit in Hu1. simpl in Hu1. apply negb_true_iff in Hu1.
    destruct (Z.eqb_spec a 0); [contradiction|].
    rewrite Hs, Hu1.
    rewrite (IH k size _ a f0 p0 m b sz l2 Hr Hu2 Hfit) by lia.
    unfold last_addr. cbn [map fst]. now rewrite last_cons_default.
Qed.

Lemma find_free_loop_miss l : forall fuel size p prev f0 p0 m,
  flist E m p l -> forallb (unfit E size) l = true -> (List.length l < fuel)%nat ->
  find_free_loop E fuel size p prev f0 p0 m = Some (f0, p0).
Proof.
  induction l as [|[a t] r IH]; intros fuel size p prev f0 p0 m Hl Hu Hf;
    (destruct fuel as [|k]; [simpl in Hf; lia|]);
    cbn [find_free_loop flist List.length forallb] in *.
  - subst p. reflexivity.
  - destruct Hl as (-> & Ha & Hs & Hr).
    apply andb_true_iff in Hu. destruct Hu as [Hu1 Hu2].
    unfold unfit in Hu1. simpl in Hu1. apply negb_true_iff in Hu1.
    destruct (Z.eqb_spec a 0); [contradiction|].
    rewrite Hs, Hu1. apply (IH k size _ a f0 p0 m Hr Hu2). lia.
Qed.

(** *** [coalesce] on a well-formed list *)

Lemma apart_spec a b : apart E a b = true <-> a + node_sz <= b \/ b + node_sz <= a.
Proof.
  unfold apart. rewrite orb_true_iff, !Z.leb_le. reflexivity.
Qed.

Lemma apart_not_covered a l x :
  forallb (apart E a) (map fst l) = true ->
  a <= x < a + node_sz -> ~ covered E l x.
Proof.
  intros Hall Hx (c & Hc & Hcx).
  rewrite forallb_forall in Hall. apply Hall, apart_spec in Hc. lia.
Qed.

Lemma covered_outside a l x :
  forallb (apart E a) (map fst l) = true ->
  covered E l x -> x < a \/ a + node_sz <= x.
Proof.
  intros Hall Hc.
  destruct (Z_lt_ge_dec x a) as [|H1]; [now left|].
  destruct (Z_lt_ge_dec x (a + node_sz)) as [H2|]; [|right; lia].
  exfalso. apply (apart_not_covered a l x Hall); [lia|assumption].
Qed.

Lemma covered_cons_inv a s l x :
  ~ covered E ((a, s) :: l) x -> ~ (a <= x < a + node_sz) /\ ~ covered E l x.
Proof.
  intros H. split.
  - intros Hx. apply H. exists a. simpl. auto.
  - intros (c & Hc & Hx). apply H. exists c. simpl. auto.
Qed.

Lemma coalesce_refines rest : forall fuel a s m,
  flist E m a ((a, s) :: rest) ->
  no_overlap E (a :: map fst rest) = true ->
  (List.length rest < fuel)%nat ->
  exists m',
    coalesce E fuel a m = Some m' /\
    flist E m' a (spec_coalesce_from E a s rest) /\
    (forall x, ~ covered E ((a, s) :: rest) x -> m' x = m x).
Proof.
  induction rest as [|[b t] r IH]; intros fuel a s m Hl Hno Hf;
    (destruct fuel as [|k]; [simpl in Hf; lia|]).
  - cbn [flist] in Hl. destruct Hl as (_ & Ha & Hs & Hn).
    exists m. cbn [coalesce spec_coalesce_from flist].
    destruct (Z.eqb_spec a 0); [contradiction|]. rewrite Hn. simpl.
    repeat split; auto.
  - cbn [flist] in Hl. destruct Hl as (_ & Ha & Hs & Hn & Hb & Ht & Hr).
    cbn [no_overlap map fst forallb] in Hno.
    apply andb_true_iff in Hno. destruct Hno as [Hab Hno].
    apply andb_true_iff in Hab. destruct Hab as [Hab Har].
    apply andb_true_iff in Hno. destruct Hno as [Hbr Hnr].
    apply apart_spec in Hab.
    cbn [coalesce spec_coalesce_from List.length] in *.
    destruct (Z.eqb_spec a 0); [contradiction|].
    rewrite Hn. destruct (Z.eqb_spec b 0); [contradiction|].
    rewrite Hs, Ht.
    destruct (ptr_add E a ((s + node_sz) mod W) =? b).
    + rewrite get_next_set_size, Hn.
      set (s' := (s + (t + node_sz) mod W) mod W).
      set (m1 := set_size E a s' m).
      assert (Hnb : get_next E b m1 = get_next E b m).
      { apply get_next_ext. intros x Hx. unfold m1.
        apply set_size_outside. pose proof (ok_next_lo E HE).
        pose proof (ok_next_hi E HE). lia. }
      rewrite Hnb.
      set (m2 := set_next E a (get_next E b m) m1).
      assert (Hm2 : forall x, x < a \/ a + node_sz <= x -> m2 x = m x).
      { intros x Hx. unfold m2, m1. rewrite set_next_outside by assumption.
        apply set_size_outside. pose proof (ok_next_lo E HE).
        pose proof (ok_next_hi E HE). lia. }
      destruct (IH k a s' m2) as (m' & Hc & Hfl & Hfr).
      * cbn [flist]. repeat split; auto.
        -- unfold m2, m1. rewrite get_size_set_next, get_size_set_size.
           unfold s'. apply Z.mod_mod. pose proof W_pos; lia.
        -- unfold m2 at 2. rewrite get_next_set_next.
           rewrite Z.mod_small by apply get_next_range.
           apply (flist_ext r m); [|assumption].
           intros x Hx. symmetry. apply Hm2. now apply (covered_outside a r).
      * cbn [no_overlap map fst]. now rewrite Har, Hnr.
      * lia.
      * exists m'. repeat split; auto.
        intros x Hx. apply covered_cons_inv in Hx. destruct Hx as [Hxa Hx].
        apply covered_cons_inv in Hx. destruct Hx as [Hxb Hx].
        rewrite Hfr.
        -- apply Hm2. lia.
        -- intros (c & Hc' & Hcx). simpl in Hc'. destruct Hc' as [<-|Hc'].
           ++ contradiction.
           ++ apply Hx. now exists c.
    + destruct (IH k b t m) as (m' & Hc & Hfl & Hfr).
      * cbn [flist]. repeat split; auto.
      * cbn [no_overlap map fst]. now rewrite Hbr, Hnr.
      * lia.
      * exists m'. split; [assumption|]. split.
        -- assert (Hma : forall x, a <= x < a + node_sz -> m' x = m x).
           { intros x Hx. apply Hfr.
             apply (apart_not_covered a ((b, t) :: r) x); [|assumption].
             cbn [map fst forallb]. rewrite Har.
             replace (apart E a b) with true by (symmetry; now apply apart_spec).
             reflexivity. }
           cbn [flist]. split; [reflexivity|]. split; [assumption|]. split.
           ++ rewrite <- Hs. now apply get_size_ext.
           ++ rewrite (get_next_ext a m' m Hma), Hn. assumption.
        -- intros x Hx. apply Hfr. intros (c & Hc' & Hcx). apply Hx.
           exists c. simpl in *. auto.
Qed.

(** *** [split] *)

Lemma hdr_sz_pos : 0 < hdr_sz.
Proof.
  pose proof (ok_word E HE). pose proof (ok_magic_lo E HE).
  pose proof (ok_magic_hi E HE). lia.
Qed.

Lemma node_sz_pos : 0 < node_sz.
Proof.
  pose proof (ok_word E HE). pose proof (ok_next_lo E HE).
  pose proof (ok_next_hi E HE). lia.
Qed.

Lemma split_spec R P B s :
  0 < B -> 0 <= R -> R + hdr_sz < W -> B + (R + hdr_sz) + node_sz <= W ->
  (P = 0 \/ P + node_sz <= B \/ B + (R + hdr_sz) + node_sz <= P) ->
  exists s',
    split E R P B s = Done (B + (R + hdr_sz), B) s' /\
    head s' = (if P =? 0 then B + (R + hdr_sz) else head s) /\
    oscalls s' = oscalls s /\
    get_size E (B + (R + hdr_sz)) (mem s')
      = (get_size E B (mem s) - (R + hdr_sz)) mod W /\
    (off_next E + Z.of_nat WB <= R + hdr_sz ->
     get_next E (B + (R + hdr_sz)) (mem s') = get_next E B (mem s)) /\
    (P <> 0 -> get_next E P (mem s') = B + (R + hdr_sz)) /\
    get_size E B (mem s') = R /\
    get_magic E B (mem s') = MAGIC E /\
    (forall x, x < B \/ B + (R + hdr_sz) + node_sz <= x ->
               P = 0 \/ x < P \/ P + node_sz <= x ->
               mem s' x = mem s x).
Proof.
  intros HB HR HRW Hrem HP.
  pose proof hdr_sz_pos as Hh. pose proof node_sz_pos as Hn.
  pose proof (ok_next_lo E HE) as Hnl. pose proof (ok_next_hi E HE) as Hnh.
  pose proof (ok_magic_lo E HE) as Hml. pose proof (ok_magic_hi E HE) as Hmh.
  pose proof (ok_word E HE) as Hw.
  unfold split. destruct (Z.eqb_spec B 0) as [|_]; [lia|].
  rewrite (Z.mod_small (R + hdr_sz)) by lia.
  unfold ptr_add. rewrite (Z.mod_small (B + (R + hdr_sz))) by lia.
  set (rem := B + (R + hdr_sz)).
  set (m1 := set_size E rem _ (mem s)).
  set (m2 := set_next E rem (get_next E B m1) m1).
  set (m3 := if P =? 0 then m2 else set_next E P rem m2).
  set (m4 := set_size E B R m3).
  set (m5 := set_magic E B (MAGIC E) m4).
  assert (H53 : forall x, x < B \/ B + hdr_sz <= x -> m5 x = m3 x).
  { intros x Hx. unfold m5, m4. rewrite set_magic_outside by assumption.
    apply set_size_outside. lia. }
  assert (H32 : forall x, P = 0 \/ x < P \/ P + node_sz <= x -> m3 x = m2 x).
  { intros x Hx. unfold m3. destruct (Z.eqb_spec P 0); [reflexivity|].
    apply set_next_outside. lia. }
  assert (H52 : forall x, rem <= x < rem + node_sz -> m5 x = m2 x).
  { intros x Hx. rewrite H53 by (unfold rem in Hx; lia).
    apply H32. unfold rem in Hx. lia. }
  eexists. split; [reflexivity|]. cbn [head mem oscalls].
  split; [reflexivity|]. split; [reflexivity|]. split; [|split; [|split; [|split; [|split]]]].
  - rewrite (get_size_ext rem m5 m2 H52). unfold m2, m1.
    rewrite get_size_set_next, get_size_set_size.
    apply Z.mod_mod. pose proof W_pos; lia.
  - intros Hoff. rewrite (get_next_ext rem m5 m2 H52). unfold m2.
    rewrite get_next_set_next, Z.mod_small by apply get_next_range.
    unfold m1, get_next, set_size. apply MemFacts.load_store_disjoint.
    unfold rem. lia.
  - intros HP0.
    assert (HP' : P + node_sz <= B \/ B + (R + hdr_sz) + node_sz <= P) by lia.
    rewrite (get_next_ext P m5 m3) by (intros x Hx; apply H53; lia).
    unfold m3. destruct (Z.eqb_spec P 0); [contradiction|].
    rewrite get_next_set_next. apply Z.mod_small. unfold rem. lia.
  - unfold m5, m4. rewrite get_size_set_magic, get_size_set_size.
    apply Z.mod_small. lia.
  - unfold m5. rewrite get_magic_set_magic. apply Z.mod_small, (ok_magic E HE).
  - intros x Hx HxP. rewrite H53 by lia. rewrite H32 by assumption.
    unfold m2, m1. rewrite set_next_outside by (unfold rem; lia).
    apply set_size_outside. unfold rem. lia.
Qed.

(** Below [actual_size] the difference wraps: the remainder gets a size
    just under [W]. *)
Lemma split_underflow R P B s :
  0 < B -> 0 <= R -> R + hdr_sz < W -> B + (R + hdr_sz) + node_sz <= W ->
  (P = 0 \/ P + node_sz <= B \/ B + (R + hdr_sz) + node_sz <= P) ->
  get_size E B (mem s) < R + hdr_sz ->
  exists s',
    split E R P B s = Done (B + (R + hdr_sz), B) s' /\
    get_size E (B + (R + hdr_sz)) (mem s')
      = W - (R + hdr_sz - get_size E B (mem s)).
Proof.
  intros HB HR HRW Hrem HP Hlt.
  destruct (split_spec R P B s HB HR HRW Hrem HP) as (s' & Hs & _ & _ & Hsz & _).
  exists s'. split; [assumption|]. rewrite Hsz.
  pose proof (get_size_range B (mem s)) as Hr.
  rewrite <- (Z.mod_add _ 1) by lia. rewrite Z.mod_small by lia. lia.
Qed.

(** *** Pieces of a list walk *)

Lemma flist_app_inv l1 : forall m p b sz l2,
  flist E m p (l1 ++ (b, sz) :: l2) ->
  b <> 0 /\ get_size E b m = sz /\ flist E m (get_next E b m) l2 /\
  (l1 = [] -> p = b) /\
  (l1 <> [] -> get_next E (last_addr l1 0) m = b /\ last_addr l1 0 <> 0).
Proof.
  induction l1 as [|[a t] r IH]; intros m p b sz l2 Hl; cbn [app flist] in Hl.
  - destruct Hl as (-> & Hb & Hs & Hr). repeat split; auto. congruence.
  - destruct Hl as (-> & Ha & Hs & Hr).
    destruct (IH m _ b sz l2 Hr) as (Hb & Hsz & Hl2 & Hnil & Hcons).
    assert (Hlast : r <> [] -> last_addr ((a, t) :: r) 0 = last_addr r 0).
    { destruct r as [|x r']; [congruence|]. intros _.
      unfold last_addr. cbn [map]. now rewrite !last_cons_default. }
    repeat split; auto; try discriminate.
    + destruct r as [|x r'].
      * simpl. now apply Hnil.
      * rewrite Hlast by discriminate. apply Hcons. discriminate.
    + destruct r as [|x r'].
      * simpl. assumption.
      * rewrite Hlast by discriminate. apply Hcons. discriminate.
Qed.

Lemma my_malloc_found fuel R s l1 B sz l2 :
  flist E (mem (snd (heap E s))) (fst (heap E s)) (l1 ++ (B, sz) :: l2) ->
  forallb (unfit E R) l1 = true -> fits E R sz = true ->
  (List.length l1 < fuel)%nat ->
  my_malloc E fuel R s =
    match split E R (last_addr l1 0) B (snd (heap E s)) with
    | Done (_, allocated) s2 => Done (ptr_add E allocated hdr_sz) s2
    | Aborted s2 => Aborted s2
    | OutOfFuel => OutOfFuel
    end.
Proof.
  intros Hl Hu Hfit Hf. unfold my_malloc, find_free.
  destruct (heap E s) as [p s1]. cbn [fst snd] in *.
  rewrite (find_free_loop_hit l1 fuel R p 0 0 0 (mem s1) B sz l2) by assumption.
  destruct (flist_app_inv l1 _ _ _ _ _ Hl) as (Hb & _).
  destruct (Z.eqb_spec B 0); [contradiction|reflexivity].
Qed.

Lemma my_malloc_not_found fuel R s l :
  flist E (mem (snd (heap E s))) (fst (heap E s)) l ->
  forallb (unfit E R) l = true -> (List.length l < fuel)%nat ->
  my_malloc E fuel R s = Done 0 (snd (heap E s)).
Proof.
  intros Hl Hu Hf. unfold my_malloc, find_free.
  destruct (heap E s) as [p s1]. cbn [fst snd] in *.
  now rewrite (find_free_loop_miss l fuel R p 0 0 0 (mem s1)).
Qed.

(** *** The fit test without wrap-around *)

Lemma fits_exact R sz :
  0 <= R -> 0 <= sz -> R + hdr_sz < W -> sz + node_sz < W ->
  fits E R sz = true <-> R + hdr_sz <= sz + node_sz.
Proof.
  intros HR Hsz H1 H2. unfold fits.
  pose proof hdr_sz_pos. pose proof node_sz_pos.
  rewrite !Z.mod_small by lia. apply Z.leb_le.
Qed.

(** ** The claims *)

(** C2. [find_free] returns the first block, in list order, that passes the
    fit test [S + sizeof(node_t) >= R + sizeof(header_t)] (both sums in
    [size_t] arithmetic, as the source computes them), together with the
    descriptor just before it in the list, [NULL] when the block is the head;
    the blocks before it, which fail the test, are skipped.  The list walked
    is the one [heap()] hands out. *)
Theorem find_free_first_fit fuel R found0 prev0 s l1 b sz l2 :
  flist E (mem (snd (heap E s))) (fst (heap E s)) (l1 ++ (b, sz) :: l2) ->
  forallb (unfit E R) l1 = true ->
  fits E R sz = true ->
  (List.length l1 < fuel)%nat ->
  find_free E fuel R found0 prev0 s
    = Done (b, last_addr l1 0) (snd (heap E s)).
Proof.
  intros Hl Hu Hfit Hf. unfold find_free.
  destruct (heap E s) as [p s1]. cbn [fst snd] in *.
  now rewrite (find_free_loop_hit l1 fuel R p 0 found0 prev0 (mem s1) b sz l2).
Qed.

(** C3, amended.  When no block of the free list passes the fit test,
    [my_malloc] returns [NULL] and leaves the state [heap()] hands out: the
    state is unchanged when the arena was already initialised, and
    [available_memory()] and [number_of_free_nodes()] answer after the call
    what they answer before it. *)
Theorem my_malloc_no_fit fuel R s l :
  flist E (mem (snd (heap E s))) (fst (heap E s)) l ->
  forallb (unfit E R) l = true ->
  (List.length l < fuel)%nat ->
  my_malloc E fuel R s = Done 0 (snd (heap E s)) /\
  (head s <> 0 -> my_malloc E fuel R s = Done 0 s) /\
  (forall f, value (available_memory E f (snd (heap E s)))
             = value (available_memory E f s)) /\
  (forall f, value (number_of_free_nodes E f (snd (heap E s)))
             = value (number_of_free_nodes E f s)).
Proof.
  intros Hl Hu Hf.
  pose proof (my_malloc_not_found fuel R s l Hl Hu Hf) as Hm.
  split; [assumption|]. split; [|split].
  - intros Hh. rewrite Hm. now rewrite heap_initialized.
  - intros f. unfold available_memory. now rewrite heap_idempotent.
  - intros f. unfold number_of_free_nodes. now rewrite heap_idempotent.
Qed.

(** C5. [my_free] looks for the header [sizeof(header_t)] bytes below the
    pointer and compares its tag with [MAGIC].  On a mismatch the call dies
    on the assertion, in the state it was entered with; on a match it never
    dies, and only then does it write to the block and run the coalescer. *)
Theorem my_free_tag_check fuel p s :
  let h := (p - hdr_sz) mod W in
  (get_magic E h (mem s) <> MAGIC E -> my_free E fuel p s = Aborted s) /\
  (get_magic E h (mem s) = MAGIC E ->
   my_free E fuel p s =
     match coalesce E fuel h
             (set_next E h (head s) (set_size E h (get_size E h (mem s)) (mem s)))
     with
     | Some m3 => Done tt {| head := h; mem := m3; oscalls := oscalls s |}
     | None => OutOfFuel
     end) /\
  (forall s', my_free E fuel p s = Done tt s' -> get_magic E h (mem s) = MAGIC E).
Proof.
  intros h. unfold my_free. fold h.
  destruct (Z.eqb_spec (get_magic E h (mem s)) (MAGIC E)) as [Heq|Hne]; cbn [negb].
  - repeat split; auto. intros Hc. contradiction.
  - repeat split; try discriminate. intros Hc. contradiction.
Qed.

(** C9.  [free_list()] changes nothing.  The three walks
    ([available_memory()], [number_of_free_nodes()], [print_free_list()])
    return on a well-formed list and leave the state [heap()] hands out,
    which is the state they were called in whenever the arena is already
    initialised; their only write is the lazy initialisation of [heap()]. *)
Theorem diagnostics_frame fuel s l :
  flist E (mem (snd (heap E s))) (fst (heap E s)) l ->
  (List.length l < fuel)%nat ->
  free_list s = (head s, s) /\
  available_memory E fuel s = Done (sum_sizes l mod W) (snd (heap E s)) /\
  number_of_free_nodes E fuel s
    = Done (Z.of_nat (List.length l)) (snd (heap E s)) /\
  (exists out, print_free_list E fuel s = Done out (snd (heap E s))) /\
  (head s <> 0 -> snd (heap E s) = s).
Proof.
  intros Hl Hf. split; [reflexivity|].
  unfold available_memory, number_of_free_nodes, print_free_list.
  destruct (heap E s) as [p s1] eqn:Hh. cbn [fst snd] in *.
  rewrite (available_memory_loop_flist l fuel 0 p (mem s1) Hl Hf)
    by (pose proof W_pos; lia).
  rewrite (number_of_free_nodes_loop_flist l fuel 0 p (mem s1) Hl Hf).
  destruct (print_free_list_loop_flist l fuel EmptyString p (mem s1) Hl Hf)
    as [out Hout].
  rewrite Hout. repeat split; eauto.
  intros Hn. rewrite heap_initialized in Hh by assumption. congruence.
Qed.

Lemma mmap_answer_munmap log a len :
  mmap_answer E (log ++ [Munmap a len]) = mmap_answer E log.
Proof.
  unfold mmap_answer. rewrite filter_app. cbn [filter is_mmap].
  now rewrite app_nil_r.
Qed.

(** The calls [reset_heap()] makes.  With [head] null it does nothing: no
    mapping call, the state is the one it was called in and [free_list()]
    still returns [NULL].  With [head] non-null it calls
    [munmap(head, HEAP_SIZE)], maps afresh and leaves one free block
    spanning the new arena. *)
Lemma reset_heap_calls s :
  (head s = 0 ->
   reset_heap E s = s /\ fst (free_list (reset_heap E s)) = 0) /\
  (head s <> 0 ->
   oscalls (reset_heap E s)
     = oscalls s ++ [Munmap (head s) (HEAP_SIZE E);
                     Mmap (mmap_answer E (oscalls s)) (HEAP_SIZE E)] /\
   fst (free_list (reset_heap E s)) = mmap_answer E (oscalls s) /\
   flist E (mem (reset_heap E s)) (head (reset_heap E s))
         [(mmap_answer E (oscalls s), HEAP_SIZE E - node_sz)]).
Proof.
  unfold reset_heap. split; intros Hh.
  - destruct (Z.eqb_spec (head s) 0); [|contradiction]. simpl. auto.
  - destruct (Z.eqb_spec (head s) 0); [contradiction|]. cbn [negb].
    set (s0 := {| head := 0; mem := mem s;
                  oscalls := oscalls s ++ [Munmap (head s) (HEAP_SIZE E)] |}).
    pose proof (heap_fresh s0 eq_refl) as Hfl.
    rewrite heap_fst in Hfl. unfold s0 at 3 in Hfl. cbn [oscalls] in Hfl.
    rewrite mmap_answer_munmap in Hfl.
    split; [|split].
    + unfold heap, s0. cbn [head Z.eqb snd oscalls].
      now rewrite mmap_answer_munmap, <- app_assoc.
    + unfold heap, s0. cbn [head Z.eqb snd fst free_list oscalls].
      apply mmap_answer_munmap.
    + exact Hfl.
Qed.

Lemma live_pages_app page l1 l2 :
  live_pages page (l1 ++ l2) = fold_left (os_step page) l2 (live_pages page l1).
Proof. unfold live_pages. apply fold_left_app. Qed.

(** C10, where the code misses it.  [reset_heap()] hands [munmap] the head
    of the free list, not the address [mmap] answered.  As soon as an
    allocation has moved [head] off a page boundary the call fails and
    unmaps nothing: after [reset_heap()] every page that was mapped before
    is still mapped, beside the pages of the new arena. *)
Theorem reset_heap_misses_arena page s :
  head s <> 0 ->
  head s mod page <> 0 ->
  live_pages page (oscalls (reset_heap E s))
    = live_pages page (oscalls s)
      ++ pages_of page (mmap_answer E (oscalls s)) (HEAP_SIZE E).
Proof.
  intros Hh Hal.
  destruct (reset_heap_calls s) as [_ Hc]. destruct (Hc Hh) as (Hlog & _).
  rewrite Hlog, live_pages_app. cbn [fold_left os_step].
  destruct (Z.eqb_spec (head s mod page) 0); [contradiction|reflexivity].
Qed.

(** C1, amended.  [split] writes the remainder's size as the [size_t]
    difference [original->size - actual_size]; when the found block's size
    equals [actual_size] the difference is 0 and the remainder descriptor is
    written with size 0. *)
Theorem split_remainder_size R P B s :
  0 < B -> 0 <= R -> R + hdr_sz < W -> B + (R + hdr_sz) + node_sz <= W ->
  (P = 0 \/ P + node_sz <= B \/ B + (R + hdr_sz) + node_sz <= P) ->
  let actual_size := (R + hdr_sz) mod W in
  let remainder := ptr_add E B actual_size in
  exists s',
    split E R P B s = Done (remainder, B) s' /\
    get_size E remainder (mem s') = (get_size E B (mem s) - actual_size) mod W /\
    (get_size E B (mem s) = actual_size -> get_size E remainder (mem s') = 0).
Proof.
  intros HB HR HRW Hrem HP actual_size remainder.
  destruct (split_spec R P B s HB HR HRW Hrem HP)
    as (s' & Hs & _ & _ & Hsz & _).
  pose proof node_sz_pos. pose proof hdr_sz_pos.
  assert (Ha : actual_size = R + hdr_sz).
  { unfold actual_size. apply Z.mod_small. lia. }
  assert (Hr : remainder = B + (R + hdr_sz)).
  { unfold remainder, ptr_add. rewrite Ha. apply Z.mod_small. lia. }
  rewrite Hr, Ha. exists s'. repeat split; auto.
  intros Heq. rewrite Hsz, Heq, Z.sub_diag. apply Z.mod_0_l. pose proof W_pos; lia.
Qed.

(** C4. A successful [my_malloc(R)] out of the found block [B] of size [S],
    with [S] above [actual_size = R + sizeof(header_t)]: the remainder
    descriptor stands at [B + actual_size] with size [S - actual_size] and
    the old [next] of [B]; it is the new head when [B] was the head, and the
    [next] of the predecessor otherwise; [B] now holds the header with size
    [R] and tag [MAGIC]; the pointer returned is [B + sizeof(header_t)]. *)
Theorem my_malloc_splits fuel R s l1 B sz l2 :
  let s1 := snd (heap E s) in
  let P := last_addr l1 0 in
  let actual_size := R + hdr_sz in
  flist E (mem s1) (fst (heap E s)) (l1 ++ (B, sz) :: l2) ->
  forallb (unfit E R) l1 = true ->
  (List.length l1 < fuel)%nat ->
  0 < B -> 0 <= R -> actual_size < sz ->
  B + node_sz + sz <= W ->
  node_sz <= hdr_sz ->
  (P = 0 \/ P + node_sz <= B \/ B + actual_size + node_sz <= P) ->
  exists s',
    my_malloc E fuel R s = Done (B + hdr_sz) s' /\
    get_size E (B + actual_size) (mem s') = sz - actual_size /\
    get_next E (B + actual_size) (mem s') = get_next E B (mem s1) /\
    (l1 = [] -> head s' = B + actual_size) /\
    (l1 <> [] -> get_next E P (mem s') = B + actual_size /\ head s' = head s1) /\
    get_size E B (mem s') = R /\
    get_magic E B (mem s') = MAGIC E.
Proof.
  intros s1 P actual_size Hl Hu Hf HB HR HS Hfoot Hsz HP.
  pose proof hdr_sz_pos as Hh. pose proof node_sz_pos as Hn.
  pose proof (ok_next_hi E HE) as Hnh.
  destruct (flist_app_inv l1 _ _ _ _ _ Hl) as (_ & HszB & _ & _ & Hpred).
  assert (Hfit : fits E R sz = true).
  { apply fits_exact; lia. }
  rewrite (my_malloc_found fuel R s l1 B sz l2 Hl Hu Hfit Hf).
  fold s1. fold P.
  destruct (split_spec R P B s1) as
    (s' & Hs & Hhd & _ & Hrs & Hrn & Hpn & Hbs & Hbm & _);
    try (unfold actual_size in *; lia).
  rewrite Hs. unfold ptr_add. rewrite (Z.mod_small (B + hdr_sz)) by lia.
  exists s'. fold actual_size in Hrs, Hrn, Hpn, Hhd.
  split; [reflexivity|]. split; [|split; [|split; [|split; [|split]]]]; auto.
  - rewrite Hrs, HszB. apply Z.mod_small. unfold actual_size in *. lia.
  - apply Hrn. unfold actual_size. lia.
  - intros ->. rewrite Hhd. reflexivity.
  - intros Hne. destruct (Hpred Hne) as [_ HP0]. fold P in HP0.
    split; [now apply Hpn|].
    rewrite Hhd. destruct (Z.eqb_spec P 0); [contradiction|reflexivity].
Qed.

(** *** The list-level coalescer *)

Lemma spec_coalesce_from_head rest : forall a s,
  exists s' r', spec_coalesce_from E a s rest = (a, s') :: r'.
Proof.
  induction rest as [|[b t] r IH]; intros a s; cbn [spec_coalesce_from].
  - eauto.
  - destruct (ptr_add E a ((s + node_sz) mod W) =? b); eauto.
Qed.

Lemma spec_coalesce_from_length rest : forall a s,
  (List.length (spec_coalesce_from E a s rest) <= S (List.length rest))%nat.
Proof.
  induction rest as [|[b t] r IH]; intros a s; cbn [spec_coalesce_from List.length].
  - lia.
  - destruct (ptr_add E a ((s + node_sz) mod W) =? b).
    + specialize (IH a ((s + (t + node_sz) mod W) mod W)). lia.
    + cbn [List.length]. specialize (IH b t). lia.
Qed.

Lemma footprint_sum l :
  Forall (fun x => 0 <= snd x) l -> 0 <= sum_sizes l <= footprint E l.
Proof.
  pose proof node_sz_pos.
  induction 1 as [|x l Hx Hl IH]; cbn [sum_sizes footprint fold_right].
  - lia.
  - fold (sum_sizes l). fold (footprint E l). lia.
Qed.

Lemma spec_coalesce_from_sum rest : forall a s,
  0 <= s -> Forall (fun x => 0 <= snd x) rest -> s + footprint E rest < W ->
  s + sum_sizes rest <= sum_sizes (spec_coalesce_from E a s rest) <= s + footprint E rest.
Proof.
  pose proof node_sz_pos as Hn.
  induction rest as [|[b t] r IH]; intros a s Hs Hall Hfp;
    cbn [spec_coalesce_from sum_sizes footprint fold_right snd] in *.
  - lia.
  - fold (sum_sizes r). fold (footprint E r). fold (footprint E r) in Hfp.
    inversion Hall as [|x l Ht Hr]; subst. cbn [snd] in Ht.
    pose proof (footprint_sum r Hr) as Hfr.
    destruct (ptr_add E a ((s + node_sz) mod W) =? b).
    + rewrite (Z.mod_small (t + node_sz)) by lia.
      rewrite (Z.mod_small (s + (t + node_sz))) by lia.
      assert (IH' := IH a (s + (t + node_sz)) ltac:(lia) Hr ltac:(lia)).
      unfold sum_sizes in *. lia.
    + cbn [sum_sizes fold_right snd].
      assert (IH' := IH b t Ht Hr ltac:(lia)).
      unfold sum_sizes in *. lia.
Qed.

(** C6. From the block it is given, [coalesce] walks the list: a block
    whose end [address + sizeof(node_t) + size] is the start of its list
    successor absorbs the successor's size and descriptor and takes over
    its [next], and is looked at again; otherwise the walk moves to the
    successor; it stops at the block without successor.  The block it
    started from stays the first block of the list, and no byte outside the
    descriptors of the walked list is written. *)
Theorem coalesce_forward_merge fuel start m l :
  flist E m start l ->
  no_overlap E (map fst l) = true ->
  (List.length l < fuel)%nat ->
  exists m',
    coalesce E fuel start m = Some m' /\
    flist E m' start (spec_coalesce E l) /\
    (forall x, ~ covered E l x -> m' x = m x) /\
    (forall a s r, l = (a, s) :: r ->
       exists s' r', spec_coalesce E l = (start, s') :: r').
Proof.
  intros Hl Hno Hf. destruct l as [|[a s] r].
  - cbn [flist] in Hl. subst start. exists m.
    destruct fuel as [|k]; [simpl in Hf; lia|]. cbn.
    repeat split; auto. discriminate.
  - assert (Ha : start = a) by (cbn [flist] in Hl; tauto). subst start.
    destruct (coalesce_refines r fuel a s m Hl Hno) as (m' & Hc & Hfl & Hfr).
    { cbn [List.length] in Hf. lia. }
    exists m'. cbn [spec_coalesce]. repeat split; auto.
    intros a0 s0 r0 _. apply spec_coalesce_from_head.
Qed.

(** C7. A [my_free] that passes the tag check turns the block into a free
    descriptor whose [next] is the head the call started with, runs
    [coalesce] from it and makes it the head: afterwards the free list is
    the coalesced list that starts with the freed block. *)
Theorem my_free_pushes_head fuel p s l :
  let h := (p - hdr_sz) mod W in
  get_magic E h (mem s) = MAGIC E ->
  flist E (mem s) (head s) l ->
  0 <= head s < W ->
  h <> 0 ->
  no_overlap E (h :: map fst l) = true ->
  (List.length l < fuel)%nat ->
  exists s' m2,
    my_free E fuel p s = Done tt s' /\
    get_next E h m2 = head s /\
    get_size E h m2 = get_size E h (mem s) /\
    flist E m2 h ((h, get_size E h (mem s)) :: l) /\
    coalesce E fuel h m2 = Some (mem s') /\
    head s' = h /\
    flist E (mem s') (head s') (spec_coalesce E ((h, get_size E h (mem s)) :: l)) /\
    (exists sz r, spec_coalesce E ((h, get_size E h (mem s)) :: l) = (h, sz) :: r).
Proof.
  intros h Hmagic Hl Hhead Hh Hno Hf.
  set (m2 := set_next E h (head s) (set_size E h (get_size E h (mem s)) (mem s))).
  assert (Hn2 : get_next E h m2 = head s).
  { unfold m2. rewrite get_next_set_next. now apply Z.mod_small. }
  assert (Hs2 : get_size E h m2 = get_size E h (mem s)).
  { unfold m2. rewrite get_size_set_next, get_size_set_size.
    apply Z.mod_small, get_size_range. }
  assert (Hfl2 : flist E m2 h ((h, get_size E h (mem s)) :: l)).
  { cbn [flist]. repeat split; auto. rewrite Hn2.
    apply (flist_ext l (mem s)); [|assumption].
    intros x Hx. unfold m2. cbn [no_overlap] in Hno.
    apply andb_true_iff in Hno. destruct Hno as [Hno _].
    pose proof (covered_outside h l x Hno Hx) as Hout.
    rewrite set_next_outside by assumption.
    rewrite set_size_outside; [reflexivity|].
    pose proof (ok_next_lo E HE). pose proof (ok_next_hi E HE). lia. }
  destruct (coalesce_refines l fuel h _ m2 Hfl2 Hno Hf) as (m' & Hc & Hfl & _).
  exists {| head := h; mem := m'; oscalls := oscalls s |}, m2.
  unfold my_free. fold h. rewrite Hmagic, Z.eqb_refl. cbn [negb].
  fold m2. rewrite Hc. cbn [head mem spec_coalesce].
  split; [reflexivity|]. split; [exact Hn2|]. split; [exact Hs2|].
  split; [exact Hfl2|]. split; [reflexivity|]. split; [reflexivity|].
  split; [exact Hfl|]. apply spec_coalesce_from_head.
Qed.

(** *** Allocating from the head block and releasing it at once *)

Lemma clear_of_spec lo hi c :
  clear_of E lo hi c = true <-> c + node_sz <= lo \/ hi <= c.
Proof.
  unfold clear_of. rewrite orb_true_iff, !Z.leb_le. reflexivity.
Qed.

Lemma clear_of_apart lo hi a l :
  lo <= a -> a + node_sz <= hi ->
  forallb (clear_of E lo hi) l = true -> forallb (apart E a) l = true.
Proof.
  intros Hlo Hhi Hall. rewrite forallb_forall in *. intros c Hc.
  apply Hall, clear_of_spec in Hc. apply apart_spec. lia.
Qed.

Lemma clear_of_covered lo hi l x :
  forallb (clear_of E lo hi) (map fst l) = true ->
  covered E l x -> x < lo \/ hi <= x.
Proof.
  intros Hall (c & Hc & Hx). rewrite forallb_forall in Hall.
  apply Hall, clear_of_spec in Hc. lia.
Qed.

Lemma malloc_free_head fuel R s B sz rest :
  flist E (mem (snd (heap E s))) (fst (heap E s)) ((B, sz) :: rest) ->
  node_sz = hdr_sz ->
  0 < B -> 0 <= R -> R + hdr_sz <= sz ->
  B + node_sz + sz <= W ->
  forallb (clear_of E B (B + node_sz + sz)) (map fst rest) = true ->
  no_overlap E (map fst rest) = true ->
  (S (List.length rest) < fuel)%nat ->
  exists s1 s2,
    my_malloc E fuel R s = Done (B + hdr_sz) s1 /\
    my_free E fuel (B + hdr_sz) s1 = Done tt s2 /\
    head s2 = B /\
    flist E (mem s2) B (spec_coalesce E ((B, sz) :: rest)).
Proof.
  intros Hl Heq HB HR HRS Hfoot Hclear Hno Hf.
  pose proof hdr_sz_pos as Hh. pose proof node_sz_pos as Hn.
  pose proof (ok_next_lo E HE) as Hnl. pose proof (ok_next_hi E HE) as Hnh.
  pose proof W_pos as HW.
  set (s0 := snd (heap E s)) in *.
  assert (Hsz : 0 <= sz < W).
  { cbn [flist] in Hl. destruct Hl as (_ & _ & <- & _). apply get_size_range. }
  assert (Hfit : fits E R sz = true) by (apply fits_exact; lia).
  pose proof (my_malloc_found fuel R s [] B sz rest Hl eq_refl Hfit) as Hm.
  fold s0 in Hm. rewrite Hm by (cbn [List.length]; lia). clear Hm.
  change (last_addr [] 0) with 0.
  destruct (split_spec R 0 B s0) as
    (s1 & Hs & Hhd & _ & Hrs & Hrn & _ & Hbs & Hbm & Hfr); try lia.
  rewrite Hs. unfold ptr_add. rewrite (Z.mod_small (B + hdr_sz)) by lia.
  cbn [Z.eqb] in Hhd.
  set (rem := B + (R + hdr_sz)) in *.
  cbn [flist] in Hl. destruct Hl as (_ & _ & HszB & Hrest).
  specialize (Hrn ltac:(lia)).
  rewrite HszB in Hrs. rewrite Z.mod_small in Hrs by lia.
  (* the state [my_free] builds before it coalesces *)
  set (m7 := set_next E B (head s1) (set_size E B (get_size E B (mem s1)) (mem s1))).
  assert (H7 : forall x, x < B \/ B + node_sz <= x -> m7 x = mem s1 x).
  { intros x Hx. unfold m7. rewrite set_next_outside by assumption.
    apply set_size_outside. lia. }
  assert (Hfl7 : flist E m7 B ((B, R) :: (rem, sz - (R + hdr_sz)) :: rest)).
  { cbn [flist]. split; [reflexivity|]. split; [lia|]. split; [|split; [|split; [|split]]].
    - unfold m7. rewrite get_size_set_next, get_size_set_size, Hbs.
      apply Z.mod_small. lia.
    - unfold m7. rewrite get_next_set_next, Hhd. apply Z.mod_small. unfold rem. lia.
    - unfold rem. lia.
    - rewrite <- Hrs. apply get_size_ext. intros x Hx. apply H7. unfold rem in Hx. lia.
    - rewrite (get_next_ext rem m7 (mem s1))
        by (intros x Hx; apply H7; unfold rem in Hx; lia).
      rewrite Hrn. apply (flist_ext rest (mem s0)); [|assumption].
      intros x Hx. pose proof (clear_of_covered _ _ _ _ Hclear Hx) as Hout.
      rewrite H7 by lia. symmetry. apply Hfr; [unfold rem in *; lia | now left]. }
  assert (Hno7 : no_overlap E (B :: map fst ((rem, sz - (R + hdr_sz)) :: rest)) = true).
  { cbn [no_overlap map fst forallb]. rewrite Hno.
    replace (apart E B rem) with true
      by (symmetry; apply apart_spec; unfold rem; lia).
    rewrite (clear_of_apart B (B + node_sz + sz) B) by (assumption || lia).
    rewrite (clear_of_apart B (B + node_sz + sz) rem)
      by (assumption || unfold rem; lia).
    reflexivity. }
  destruct (coalesce_refines _ fuel B R m7 Hfl7 Hno7) as (m' & Hc & Hfl & _).
  { cbn [List.length]. lia. }
  exists s1, {| head := B; mem := m'; oscalls := oscalls s1 |}.
  split; [reflexivity|].
  unfold my_free. replace ((B + hdr_sz - hdr_sz) mod W) with B
    by (symmetry; rewrite Z.add_simpl_r; apply Z.mod_small; lia).
  rewrite Hbm, Z.eqb_refl. cbn [negb]. fold m7. rewrite Hc.
  split; [reflexivity|]. split; [reflexivity|]. cbn [mem spec_coalesce].
  cbn [spec_coalesce_from] in Hfl.
  replace (ptr_add E B ((R + node_sz) mod W) =? rem) with true in Hfl.
  2:{ symmetry. apply Z.eqb_eq. unfold ptr_add.
      rewrite (Z.mod_small (R + node_sz)) by lia.
      rewrite Z.mod_small by lia. unfold rem. lia. }
  replace ((R + (sz - (R + hdr_sz) + node_sz) mod W) mod W) with sz in Hfl.
  2:{ replace (sz - (R + hdr_sz) + node_sz) with (sz - R) by lia.
      rewrite (Z.mod_small (sz - R)) by lia.
      replace (R + (sz - R)) with sz by lia. symmetry. now apply Z.mod_small. }
  exact Hfl.
Qed.

(** C8, amended.  When [my_malloc(R)] takes its block from the head of a
    well-formed free list (the head block of size [S] holds the request and
    the remainder's descriptor, [R + sizeof(header_t) <= S], and both
    structs have one size) and the pointer is released at once, the freed
    block merges with its remainder and [available_memory()] afterwards is
    at least what it was before the allocation. *)
Theorem malloc_free_head_available fuel R s B sz rest :
  flist E (mem (snd (heap E s))) (fst (heap E s)) ((B, sz) :: rest) ->
  node_sz = hdr_sz ->
  0 < B -> 0 <= R -> R + hdr_sz <= sz ->
  B + node_sz + sz <= W ->
  forallb (clear_of E B (B + node_sz + sz)) (map fst rest) = true ->
  no_overlap E (map fst rest) = true ->
  footprint E ((B, sz) :: rest) < W ->
  (S (List.length rest) < fuel)%nat ->
  exists p s1 s2 n0 n2,
    my_malloc E fuel R s = Done p s1 /\ p <> 0 /\
    my_free E fuel p s1 = Done tt s2 /\
    value (available_memory E fuel s) = Some n0 /\
    value (available_memory E fuel s2) = Some n2 /\
    n0 <= n2.
Proof.
  intros Hl Heq HB HR HRS Hfoot Hclear Hno Hfp Hf.
  pose proof hdr_sz_pos as Hh. pose proof node_sz_pos as Hn.
  destruct (malloc_free_head fuel R s B sz rest Hl Heq HB HR HRS Hfoot Hclear Hno Hf)
    as (s1 & s2 & Hm & Hfree & Hhd2 & Hfl2).
  pose proof (flist_sizes_range _ _ _ Hl) as Hrange.
  assert (Hpos : Forall (fun x : Z * Z => 0 <= snd x) ((B, sz) :: rest)).
  { eapply Forall_impl; [|exact Hrange]. cbv beta. intros x Hx. lia. }
  pose proof (Forall_inv Hpos) as Hsz. cbn [snd] in Hsz.
  pose proof (Forall_inv_tail Hpos) as Hrest.
  cbn [footprint fold_right snd] in Hfp. fold (footprint E rest) in Hfp.
  pose proof (footprint_sum rest Hrest) as Hfs.
  pose proof (spec_coalesce_from_sum rest B sz Hsz Hrest ltac:(lia)) as Hsum.
  exists (B + hdr_sz), s1, s2,
    (sum_sizes ((B, sz) :: rest) mod W),
    (sum_sizes (spec_coalesce E ((B, sz) :: rest)) mod W).
  split; [assumption|]. split; [lia|]. split; [assumption|]. split; [|split].
  - unfold available_memory. destruct (heap E s) as [p0 s0]. cbn [fst snd] in *.
    rewrite (available_memory_loop_flist _ fuel 0 p0 (mem s0) Hl)
      by (cbn [List.length]; lia). reflexivity.
  - unfold available_memory. rewrite heap_initialized by lia.
    rewrite Hhd2.
    rewrite (available_memory_loop_flist _ fuel 0 B (mem s2) Hfl2); [reflexivity| |lia].
    cbn [spec_coalesce]. pose proof (spec_coalesce_from_length rest B sz). lia.
  - cbn [spec_coalesce sum_sizes fold_right snd]. fold (sum_sizes rest).
    fold (sum_sizes (spec_coalesce_from E B sz rest)).
    rewrite !Z.mod_small by lia. lia.
Qed.

(** ** Further properties of the code *)

(** *** Strings *)

Lemma append_assoc (a b c : string) : ((a ++ b) ++ c = a ++ (b ++ c))%string.
Proof. induction a as [|x a IH]; simpl; [reflexivity|]. now rewrite IH. Qed.

Lemma append_nil_r (a : string) : (a ++ "" = a)%string.
Proof. induction a as [|x a IH]; simpl; [reflexivity|]. now rewrite IH. Qed.

Lemma print_free_list_loop_text l : forall fuel out p m,
  flist E m p l -> (List.length l < fuel)%nat ->
  print_free_list_loop E fuel out p m = Some (out ++ show_list E l)%string.
Proof.
  induction l as [|[a sz] r IH]; intros fuel out p m Hl Hf;
    (destruct fuel as [|k]; [simpl in Hf; lia|]);
    cbn [print_free_list_loop flist List.length] in *.
  - subst p. simpl. now rewrite append_nil_r.
  - destruct Hl as (-> & Ha & Hs & Hr).
    destruct (Z.eqb_spec a 0); [contradiction|].
    rewrite (IH k _ _ m Hr) by lia. rewrite Hs. f_equal.
    unfold show_list. cbn [map String.concat].
    destruct r as [|[b t] r'].
    + cbn [flist] in Hr. rewrite Hr. cbn [Z.eqb negb map String.concat].
      now rewrite append_nil_r.
    + cbn [flist] in Hr. destruct Hr as (Hb & Hb0 & _). rewrite Hb.
      destruct (Z.eqb_spec b 0); [contradiction|]. cbn [negb map].
      unfold show_block. cbn [snd].
      now rewrite !append_assoc.
Qed.

(** X3. On a well-formed free list [print_free_list] prints one
    [Free(size)] per block in list order, [->] between two blocks, then a
    newline; an empty list prints the newline alone. *)
Theorem print_free_list_text fuel s l :
  flist E (mem (snd (heap E s))) (fst (heap E s)) l ->
  (List.length l < fuel)%nat ->
  print_free_list E fuel s
    = Done (show_list E l ++ String (ascii_of_nat 10) EmptyString)%string
           (snd (heap E s)).
Proof.
  intros Hl Hf. unfold print_free_list.
  destruct (heap E s) as [p s1]. cbn [fst snd] in *.
  now rewrite (print_free_list_loop_text l fuel EmptyString p (mem s1) Hl Hf).
Qed.

(** *** The arena *)

(** X1. [heap()] never returns [NULL], and calling it again changes
    nothing: the second call returns the same head and the same state, so
    the arena is mapped once. *)
Theorem heap_twice s :
  fst (heap E s) <> 0 /\
  heap E (snd (heap E s)) = heap E s /\
  (head s <> 0 -> heap E s = (head s, s)).
Proof.
  split; [|split].
  - rewrite heap_fst. apply heap_head_nonzero.
  - apply heap_idempotent.
  - apply heap_initialized.
Qed.

Lemma reset_heap_list s :
  exists a,
    flist E (mem (snd (heap E (reset_heap E s)))) (fst (heap E (reset_heap E s)))
          [(a, HEAP_SIZE E - node_sz)].
Proof.
  unfold reset_heap. destruct (Z.eqb_spec (head s) 0) as [H0|Hn]; cbn [negb].
  - eexists. now apply heap_fresh.
  - rewrite heap_idempotent. eexists. now apply heap_fresh.
Qed.

(** X2. Whatever the state, after [reset_heap()] the free list is one block:
    [available_memory()] is [HEAP_SIZE - sizeof(node_t)] and
    [number_of_free_nodes()] is 1. *)
Theorem reset_heap_then_measure fuel s :
  (1 < fuel)%nat ->
  value (available_memory E fuel (reset_heap E s))
    = Some (HEAP_SIZE E - node_sz) /\
  value (number_of_free_nodes E fuel (reset_heap E s)) = Some 1.
Proof.
  intros Hf. destruct (reset_heap_list s) as [a Hl].
  unfold available_memory, number_of_free_nodes.
  destruct (heap E (reset_heap E s)) as [p s1]. cbn [fst snd] in Hl.
  rewrite (available_memory_loop_flist _ fuel 0 p (mem s1) Hl)
    by (cbn [List.length]; pose proof W_pos; lia).
  rewrite (number_of_free_nodes_loop_flist _ fuel 0 p (mem s1) Hl)
    by (cbn [List.length]; lia).
  cbn [value sum_sizes fold_right snd List.length]. split; [|reflexivity].
  rewrite Z.add_0_l, Z.add_0_r. f_equal. apply arena_size_small.
Qed.

(** *** [find_free] and [my_malloc] at the edges *)

(** X4. When no block of the list passes the fit test, [find_free] writes
    neither out-parameter: both come back as they were passed in. *)
Theorem find_free_no_fit fuel R found0 prev0 s l :
  flist E (mem (snd (heap E s))) (fst (heap E s)) l ->
  forallb (unfit E R) l = true ->
  (List.length l < fuel)%nat ->
  find_free E fuel R found0 prev0 s = Done (found0, prev0) (snd (heap E s)).
Proof.
  intros Hl Hu Hf. unfold find_free.
  destruct (heap E s) as [p s1]. cbn [fst snd] in *.
  now rewrite (find_free_loop_miss l fuel R p 0 found0 prev0 (mem s1)).
Qed.

Lemma split_done R P B s :
  B <> 0 ->
  exists s',
    split E R P B s = Done (ptr_add E B ((R + hdr_sz) mod W), B) s' /\
    head s' = (if P =? 0 then ptr_add E B ((R + hdr_sz) mod W) else head s).
Proof.
  intros HB. unfold split. destruct (Z.eqb_spec B 0); [contradiction|].
  eexists. split; [reflexivity|]. reflexivity.
Qed.

(** X5. On an arena that is not mapped yet, [my_malloc(R)] returns [NULL]
    when [R + sizeof(header_t)] exceeds [HEAP_SIZE]; it maps the arena and
    serves the request from its start when the request and the remainder's
    descriptor fit in it, [R + sizeof(header_t) + sizeof(node_t) <=
    HEAP_SIZE]. *)
Theorem my_malloc_first_call fuel R s :
  head s = 0 -> 0 <= R -> R + hdr_sz < W -> (1 < fuel)%nat ->
  (HEAP_SIZE E < R + hdr_sz ->
   my_malloc E fuel R s = Done 0 (snd (heap E s))) /\
  (R + hdr_sz + node_sz <= HEAP_SIZE E ->
   exists s',
     my_malloc E fuel R s
       = Done (ptr_add E (mmap_answer E (oscalls s)) hdr_sz) s' /\
     head s' = ptr_add E (mmap_answer E (oscalls s)) (R + hdr_sz)).
Proof.
  intros H0 HR HRW Hf.
  pose proof (heap_fresh s H0) as Hl.
  pose proof (ok_node_lt E HE). pose proof (ok_arena_lo E HE).
  pose proof (ok_arena_hi E HE). pose proof node_sz_pos. pose proof hdr_sz_pos.
  pose proof (mmap_answer_pos (oscalls s)).
  assert (Hfit : fits E R (HEAP_SIZE E - node_sz) = true
                 <-> R + hdr_sz <= HEAP_SIZE E - node_sz + node_sz)
    by (apply fits_exact; lia).
  split; intros Hcmp.
  - apply (my_malloc_not_found fuel R s _ Hl); [|cbn [List.length]; lia].
    cbn [forallb]. unfold unfit. cbn [snd].
    destruct (fits E R (HEAP_SIZE E - node_sz)); [|reflexivity].
    pose proof (proj1 Hfit eq_refl). lia.
  - rewrite (my_malloc_found fuel R s [] _ _ [] Hl eq_refl)
      by (try (apply Hfit); cbn [List.length]; lia).
    destruct (split_done R (last_addr [] 0) (mmap_answer E (oscalls s))
                (snd (heap E s)))
      as (s' & Hs & Hh); [lia|].
    rewrite Hs. exists s'. split; [reflexivity|]. rewrite Hh.
    change (last_addr [] 0 =? 0) with true. cbv iota.
    now rewrite (Z.mod_small (R + hdr_sz)) by lia.
Qed.

(** X6. The fit test compares whole footprints, so the head block is also
    taken when its size lies below [R + sizeof(header_t)] by less than a
    descriptor.  When the remainder's descriptor still lies in the arena,
    [my_malloc] then succeeds: the descriptor it makes the new head ends
    past the end of the block, over the first bytes of what follows it,
    and carries the wrapped size [2^w - (R + sizeof(header_t) - size)]. *)
Theorem my_malloc_overruns_block fuel R s B sz rest :
  flist E (mem (snd (heap E s))) (fst (heap E s)) ((B, sz) :: rest) ->
  0 < B -> 0 <= R ->
  R + hdr_sz <= sz + node_sz -> sz < R + hdr_sz ->
  B + (R + hdr_sz) + node_sz <= W ->
  in_arena (oscalls (snd (heap E s))) B (B + (R + hdr_sz) + node_sz) = true ->
  (0 < fuel)%nat ->
  exists s',
    my_malloc E fuel R s = Done (B + hdr_sz) s' /\
    head s' = B + (R + hdr_sz) /\
    get_size E (head s') (mem s') = W - (R + hdr_sz - sz) /\
    B + node_sz + sz < head s' + node_sz.
Proof.
  intros Hl HB HR Hfoot Hlt Hrem _ Hf.
  pose proof hdr_sz_pos as Hh. pose proof node_sz_pos as Hn.
  assert (Hsz : 0 <= sz < W).
  { cbn [flist] in Hl. destruct Hl as (_ & _ & <- & _). apply get_size_range. }
  assert (Hfit : fits E R sz = true) by (apply fits_exact; lia).
  rewrite (my_malloc_found fuel R s [] B sz rest Hl eq_refl Hfit)
    by (cbn [List.length]; lia).
  change (last_addr [] 0) with 0.
  destruct (split_spec R 0 B (snd (heap E s))) as
    (s' & Hs & Hhd & _ & Hrs & _); try lia.
  rewrite Hs. unfold ptr_add. rewrite (Z.mod_small (B + hdr_sz)) by lia.
  cbn [Z.eqb] in Hhd. exists s'. rewrite Hhd.
  split; [reflexivity|]. split; [reflexivity|]. split; [|lia].
  rewrite Hrs. cbn [flist] in Hl. destruct Hl as (_ & _ & -> & _).
  rewrite <- (Z.mod_add _ 1) by lia. rewrite Z.mod_small by lia. lia.
Qed.


(** *** What a split does to the list *)

Lemma last_addr_in l d : l <> [] -> In (last_addr l d) (map fst l).
Proof.
  induction l as [|x r IH]; intros Hne; [congruence|].
  unfold last_addr in *. cbn [map]. rewrite last_cons_default.
  destruct r as [|y r'].
  - simpl. auto.
  - right. cbn [map] in *. rewrite last_cons_default.
    rewrite <- (last_cons_default _ (fst y) d). apply IH. discriminate.
Qed.

Lemma last_addr_tail x y r d :
  last_addr (x :: y :: r) d = last_addr (y :: r) d.
Proof. unfold last_addr. cbn [map]. now rewrite !last_cons_default. Qed.

Lemma split_pred_size R P B s x s' :
  split E R P B s = Done x s' ->
  P <> 0 -> 0 < B -> 0 <= R -> R + hdr_sz < W ->
  B + (R + hdr_sz) + node_sz <= W ->
  P + node_sz <= B \/ B + (R + hdr_sz) + node_sz <= P ->
  get_size E P (mem s') = get_size E P (mem s).
Proof.
  intros Hs HP HB HR HRW Hrem Hout.
  pose proof hdr_sz_pos as Hh. pose proof node_sz_pos as Hn.
  pose proof (ok_next_lo E HE) as Hnl. pose proof (ok_next_hi E HE) as Hnh.
  unfold split in Hs. destruct (Z.eqb_spec B 0); [lia|].
  destruct (Z.eqb_spec P 0); [contradiction|].
  injection Hs as _ <-. cbn [mem].
  rewrite (Z.mod_small (R + hdr_sz)) by lia.
  unfold ptr_add. rewrite (Z.mod_small (B + (R + hdr_sz))) by lia.
  set (rem := B + (R + hdr_sz)).
  rewrite (get_size_ext P _ (set_next E P rem
             (set_next E rem
                (get_next E B (set_size E rem
                   ((get_size E B (mem s) - (R + hdr_sz)) mod W) (mem s)))
                (set_size E rem
                   ((get_size E B (mem s) - (R + hdr_sz)) mod W) (mem s))))).
  2:{ intros y Hy. rewrite set_magic_outside by lia.
      apply set_size_outside. lia. }
  rewrite get_size_set_next.
  apply get_size_ext. intros y Hy.
  rewrite set_next_outside by (unfold rem; lia).
  apply set_size_outside. unfold rem. lia.
Qed.

Lemma flist_relink_tail m m' B sz' rem l2 P lo hi :
  flist E m (get_next E B m) l2 ->
  forallb (clear_of E lo hi) (map fst l2) = true ->
  P = 0 \/ forallb (apart E P) (map fst l2) = true ->
  (forall x, x < lo \/ hi <= x -> P = 0 \/ x < P \/ P + node_sz <= x ->
             m' x = m x) ->
  rem <> 0 -> get_size E rem m' = sz' -> get_next E rem m' = get_next E B m ->
  flist E m' rem ((rem, sz') :: l2).
Proof.
  intros Hl Hclear HP Hfr Hrem Hsz Hnx. cbn [flist].
  repeat split; auto. rewrite Hnx.
  apply (flist_ext l2 m); [|assumption].
  intros x Hx. symmetry. apply Hfr.
  - now apply (clear_of_covered lo hi l2).
  - destruct HP as [HP|HP]; [now left|]. right.
    now apply (covered_outside P l2).
Qed.

Lemma flist_relink l1 : forall m m' p B sz sz' rem l2 P lo hi,
  flist E m p (l1 ++ (B, sz) :: l2) ->
  (l1 <> [] -> P = last_addr l1 0) -> (l1 = [] -> P = 0) ->
  forallb (clear_of E lo hi) (map fst l1 ++ map fst l2) = true ->
  no_overlap E (map fst l1 ++ map fst l2) = true ->
  (forall x, x < lo \/ hi <= x -> P = 0 \/ x < P \/ P + node_sz <= x ->
             m' x = m x) ->
  (P <> 0 -> get_size E P m' = get_size E P m /\ get_next E P m' = rem) ->
  rem <> 0 -> get_size E rem m' = sz' -> get_next E rem m' = get_next E B m ->
  flist E m' (match l1 with [] => rem | _ => p end) (l1 ++ (rem, sz') :: l2).
Proof.
  induction l1 as [|[a1 t1] r IH];
    intros m m' p B sz sz' rem l2 P lo hi Hl HPl HP0 Hclear Hno Hfr HPf Hrem Hsz Hnx.
  - cbn [app flist] in *. destruct Hl as (_ & _ & _ & Hl2).
    apply (flist_relink_tail m m' B sz' rem l2 P lo hi); auto.
  - cbn [app flist map fst forallb no_overlap] in *.
    destruct Hl as (-> & Ha1 & Ht1 & Hr).
    apply andb_true_iff in Hclear. destruct Hclear as [Hc1 Hclear].
    apply andb_true_iff in Hno. destruct Hno as [Hap Hno].
    apply clear_of_spec in Hc1.
    specialize (HPl ltac:(discriminate)).
    destruct r as [|x r'].
    + (* [a1] is the predecessor *)
      change (last_addr [(a1, t1)] 0) with a1 in HPl. subst P.
      destruct (HPf Ha1) as [Hps Hpn].
      cbn [app flist] in Hr. destruct Hr as (Hnb & _ & _ & Hl2).
      split; [reflexivity|]. split; [assumption|]. split; [congruence|].
      rewrite Hpn. cbn [app].
      apply (flist_relink_tail m m' B sz' rem l2 a1 lo hi); auto.
    + (* [a1] lies before the predecessor *)
      assert (HPin : In P (map fst (x :: r'))).
      { rewrite HPl, last_addr_tail. apply last_addr_in. discriminate. }
      assert (Hma : forall y, a1 <= y < a1 + node_sz -> m' y = m y).
      { intros y Hy. apply Hfr; [lia|]. right.
        rewrite forallb_forall in Hap.
        assert (Hin : In P (map fst (x :: r') ++ map fst l2))
          by (apply in_or_app; now left).
        apply Hap, apart_spec in Hin. lia. }
      split; [reflexivity|]. split; [assumption|]. split.
      * rewrite <- Ht1. now apply get_size_ext.
      * rewrite (get_next_ext a1 m' m Hma).
        apply (IH m m' (get_next E a1 m) B sz sz' rem l2 P lo hi); auto.
        discriminate.
Qed.

Lemma clear_of_shrink lo hi hi' l :
  hi' <= hi ->
  forallb (clear_of E lo hi) l = true -> forallb (clear_of E lo hi') l = true.
Proof.
  intros Hle Hall. rewrite forallb_forall in *. intros c Hc.
  apply Hall, clear_of_spec in Hc. apply clear_of_spec. lia.
Qed.

Lemma flist_head_nonzero m p l : l <> [] -> flist E m p l -> p <> 0.
Proof.
  destruct l as [|[a t] r]; [congruence|]. intros _ (-> & Ha & _). exact Ha.
Qed.

Lemma sum_sizes_app l1 x l2 :
  sum_sizes (l1 ++ x :: l2) = sum_sizes l1 + snd x + sum_sizes l2.
Proof.
  unfold sum_sizes. induction l1 as [|y r IH]; cbn [app fold_right]; lia.
Qed.

Lemma sum_sizes_nonneg l :
  Forall (fun x => 0 <= snd x < W) l -> 0 <= sum_sizes l.
Proof.
  unfold sum_sizes. induction 1 as [|x r Hx Hr IH]; cbn [fold_right]; lia.
Qed.

Lemma my_malloc_list fuel R s l1 B sz l2 :
  flist E (mem (snd (heap E s))) (fst (heap E s)) (l1 ++ (B, sz) :: l2) ->
  forallb (unfit E R) l1 = true ->
  (List.length l1 < fuel)%nat ->
  0 < B -> 0 <= R -> R + hdr_sz <= sz ->
  B + node_sz + sz <= W ->
  node_sz <= hdr_sz ->
  forallb (clear_of E B (B + node_sz + sz)) (map fst l1 ++ map fst l2) = true ->
  no_overlap E (map fst l1 ++ map fst l2) = true ->
  exists s',
    my_malloc E fuel R s = Done (B + hdr_sz) s' /\
    head s' = match l1 with [] => B + (R + hdr_sz) | _ => fst (heap E s) end /\
    flist E (mem s') (head s')
          (l1 ++ (B + (R + hdr_sz), sz - (R + hdr_sz)) :: l2) /\
    get_size E B (mem s') = R /\
    get_magic E B (mem s') = MAGIC E.
Proof.
  intros Hl Hu Hf HB HR HRS Hfoot Hnh Hclear Hno.
  pose proof hdr_sz_pos as Hh. pose proof node_sz_pos as Hn.
  pose proof (ok_next_hi E HE) as Hnhi.
  set (s1 := snd (heap E s)) in *. set (P := last_addr l1 0).
  destruct (flist_app_inv l1 _ _ _ _ _ Hl) as (_ & HszB & _ & _ & Hpred).
  assert (Hsz : 0 <= sz < W) by (rewrite <- HszB; apply get_size_range).
  assert (Hfit : fits E R sz = true) by (apply fits_exact; lia).
  assert (HP : P = 0 \/ P + node_sz <= B \/ B + (R + hdr_sz) + node_sz <= P).
  { destruct l1 as [|x r]; [now left|]. right.
    assert (Hin : In P (map fst (x :: r) ++ map fst l2)).
    { apply in_or_app. left. apply last_addr_in. discriminate. }
    rewrite forallb_forall in Hclear. apply Hclear, clear_of_spec in Hin. lia. }
  rewrite (my_malloc_found fuel R s l1 B sz l2 Hl Hu Hfit Hf). fold s1 P.
  destruct (split_spec R P B s1) as
    (s' & Hs & Hhd & _ & Hrs & Hrn & Hpn & Hbs & Hbm & Hfr); try lia.
  pose proof (split_pred_size R P B s1 _ s' Hs) as Hps.
  rewrite Hs. unfold ptr_add. rewrite (Z.mod_small (B + hdr_sz)) by lia.
  exists s'. split; [reflexivity|].
  assert (Hhead : head s' = match l1 with
                            | [] => B + (R + hdr_sz)
                            | _ => fst (heap E s)
                            end).
  { rewrite Hhd. destruct l1 as [|x r]; [reflexivity|].
    destruct Hpred as [_ HP0]; [discriminate|]. fold P in HP0.
    destruct (Z.eqb_spec P 0); [contradiction|]. unfold s1. now rewrite heap_fst. }
  split; [exact Hhead|]. split; [|split; assumption].
  rewrite Hhead.
  apply (flist_relink l1 (mem s1) (mem s') (fst (heap E s)) B sz _ _ l2 P
           B (B + (R + hdr_sz) + node_sz)); auto; try lia.
  - intros ->. reflexivity.
  - apply (clear_of_shrink B (B + node_sz + sz)); [lia|assumption].
  - rewrite Hrs, HszB. apply Z.mod_small. lia.
Qed.

(** X8. A [my_malloc(R)] served by a block that holds the request and the
    remainder's descriptor leaves the free list as it was, with the
    remainder in the place of the block: the number of free nodes is the
    same and [available_memory()] is lower by [R + sizeof(header_t)]. *)
Theorem my_malloc_accounting fuel R s l1 B sz l2 :
  flist E (mem (snd (heap E s))) (fst (heap E s)) (l1 ++ (B, sz) :: l2) ->
  forallb (unfit E R) l1 = true ->
  0 < B -> 0 <= R -> R + hdr_sz <= sz ->
  B + node_sz + sz <= W ->
  node_sz <= hdr_sz ->
  forallb (clear_of E B (B + node_sz + sz)) (map fst l1 ++ map fst l2) = true ->
  no_overlap E (map fst l1 ++ map fst l2) = true ->
  sum_sizes (l1 ++ (B, sz) :: l2) < W ->
  (List.length (l1 ++ (B, sz) :: l2) < fuel)%nat ->
  exists s',
    my_malloc E fuel R s = Done (B + hdr_sz) s' /\
    flist E (mem s') (head s')
          (l1 ++ (B + (R + hdr_sz), sz - (R + hdr_sz)) :: l2) /\
    value (available_memory E fuel s') =
      option_map (fun n => n - (R + hdr_sz)) (value (available_memory E fuel s)) /\
    value (available_memory E fuel s) = Some (sum_sizes (l1 ++ (B, sz) :: l2)) /\
    value (number_of_free_nodes E fuel s')
      = value (number_of_free_nodes E fuel s).
Proof.
  intros Hl Hu HB HR HRS Hfoot Hnh Hclear Hno Hsum Hf.
  rewrite length_app in Hf. cbn [List.length] in Hf.
  destruct (my_malloc_list fuel R s l1 B sz l2 Hl Hu ltac:(lia) HB HR HRS
              Hfoot Hnh Hclear Hno) as (s' & Hm & _ & Hl' & _).
  pose proof (flist_sizes_range _ _ _ Hl) as Hrange.
  apply Forall_app in Hrange. destruct Hrange as [Hr1 Hr2].
  pose proof (Forall_inv Hr2) as Hrb. cbn [snd] in Hrb.
  apply Forall_inv_tail in Hr2.
  pose proof (sum_sizes_nonneg l1 Hr1). pose proof (sum_sizes_nonneg l2 Hr2).
  rewrite sum_sizes_app in Hsum. cbn [snd] in Hsum.
  assert (Hh' : head s' <> 0).
  { apply (fun H => flist_head_nonzero _ _ _ H Hl'). now destruct l1. }
  exists s'. split; [assumption|]. split; [assumption|].
  unfold available_memory, number_of_free_nodes.
  rewrite (heap_initialized s' Hh').
  destruct (heap E s) as [p0 s0]. cbn [fst snd] in *.
  rewrite (available_memory_loop_flist _ fuel 0 _ _ Hl')
    by (rewrite ?length_app; cbn [List.length]; lia).
  rewrite (available_memory_loop_flist _ fuel 0 _ _ Hl)
    by (rewrite ?length_app; cbn [List.length]; lia).
  rewrite (number_of_free_nodes_loop_flist _ fuel 0 _ _ Hl')
    by (rewrite ?length_app; cbn [List.length]; lia).
  rewrite (number_of_free_nodes_loop_flist _ fuel 0 _ _ Hl)
    by (rewrite ?length_app; cbn [List.length]; lia).
  cbn [value option_map]. rewrite !sum_sizes_app. cbn [snd].
  pose proof hdr_sz_pos.
  rewrite !Z.add_0_l, !Z.mod_small by lia.
  rewrite !length_app. cbn [List.length].
  repeat split; f_equal; lia.
Qed.

(** *** What [coalesce] keeps *)

Lemma footprint_cons x l :
  footprint E (x :: l) = snd x + node_sz + footprint E l.
Proof. reflexivity. Qed.

Lemma spec_coalesce_from_footprint rest : forall a s,
  0 <= s -> Forall (fun x => 0 <= snd x) rest -> s + footprint E rest < W ->
  footprint E (spec_coalesce_from E a s rest) = s + node_sz + footprint E rest.
Proof.
  pose proof node_sz_pos as Hn.
  induction rest as [|[b t] r IH]; intros a s Hs Hall Hfp;
    cbn [spec_coalesce_from].
  - reflexivity.
  - rewrite footprint_cons in *. cbn [snd] in *.
    pose proof (Forall_inv Hall) as Ht. cbn [snd] in Ht.
    pose proof (Forall_inv_tail Hall) as Hr.
    pose proof (footprint_sum r Hr) as Hfr.
    destruct (ptr_add E a ((s + node_sz) mod W) =? b).
    + rewrite (Z.mod_small (t + node_sz)) by lia.
      rewrite (Z.mod_small (s + (t + node_sz))) by lia.
      rewrite IH by (assumption || lia). lia.
    + rewrite footprint_cons. cbn [snd].
      rewrite IH by (assumption || lia). lia.
Qed.

Lemma spec_coalesce_from_settled rest : forall a s,
  no_adjacent E (spec_coalesce_from E a s rest) = true.
Proof.
  induction rest as [|[b t] r IH]; intros a s; cbn [spec_coalesce_from].
  - reflexivity.
  - destruct (ptr_add E a ((s + node_sz) mod W) =? b) eqn:Hadj; [apply IH|].
    specialize (IH b t).
    destruct (spec_coalesce_from_head r b t) as (t' & r' & Heq).
    rewrite Heq in *. cbn [no_adjacent] in *. now rewrite Hadj, IH.
Qed.

Lemma spec_coalesce_from_fixed rest : forall a s,
  no_adjacent E ((a, s) :: rest) = true ->
  spec_coalesce_from E a s rest = (a, s) :: rest.
Proof.
  induction rest as [|[b t] r IH]; intros a s Hna; cbn [spec_coalesce_from].
  - reflexivity.
  - cbn [no_adjacent] in Hna. apply andb_true_iff in Hna.
    destruct Hna as [Hab Hr]. apply negb_true_iff in Hab. rewrite Hab.
    f_equal. now apply IH.
Qed.

Lemma coalesce_settled l : forall fuel p m,
  flist E m p l -> no_adjacent E l = true -> (List.length l < fuel)%nat ->
  coalesce E fuel p m = Some m.
Proof.
  induction l as [|[a s] r IH]; intros fuel p m Hl Hna Hf;
    (destruct fuel as [|k]; [simpl in Hf; lia|]);
    cbn [flist coalesce List.length] in *.
  - subst p. reflexivity.
  - destruct Hl as (-> & Ha & Hs & Hr).
    destruct (Z.eqb_spec a 0); [contradiction|].
    destruct r as [|[b t] r'].
    + cbn [flist] in Hr. now rewrite Hr.
    + pose proof Hr as Hr0. cbn [flist] in Hr0. destruct Hr0 as (Hb & Hb0 & _).
      rewrite Hb. destruct (Z.eqb_spec b 0); [contradiction|].
      cbn [no_adjacent] in Hna. apply andb_true_iff in Hna.
      destruct Hna as [Hab Hr']. apply negb_true_iff in Hab.
      rewrite Hs, Hab. rewrite <- Hb.
      apply (IH k _ m Hr Hr'). cbn [List.length] in *. lia.
Qed.

(** X9. [coalesce] loses no byte of a well-formed list: the blocks of the
    list it leaves take up, descriptors included, what the blocks of the
    list it was given took up, and there are no more of them. *)
Theorem coalesce_keeps_footprint fuel start m l :
  flist E m start l ->
  no_overlap E (map fst l) = true ->
  footprint E l < W ->
  (List.length l < fuel)%nat ->
  exists m' l',
    coalesce E fuel start m = Some m' /\
    flist E m' start l' /\
    footprint E l' = footprint E l /\
    (List.length l' <= List.length l)%nat.
Proof.
  intros Hl Hno Hfp Hf. destruct l as [|[a s] r].
  - cbn [flist] in Hl. subst start. exists m, [].
    destruct fuel as [|k]; [simpl in Hf; lia|]. cbn. auto.
  - assert (Ha : start = a) by (cbn [flist] in Hl; tauto). subst start.
    destruct (coalesce_refines r fuel a s m Hl Hno) as (m' & Hc & Hfl & _).
    { cbn [List.length] in Hf. lia. }
    pose proof (flist_sizes_range _ _ _ Hl) as Hrange.
    assert (Hpos : Forall (fun x : Z * Z => 0 <= snd x) ((a, s) :: r)).
    { eapply Forall_impl; [|exact Hrange]. cbv beta. intros x Hx. lia. }
    pose proof (Forall_inv Hpos) as Hs. cbn [snd] in Hs.
    pose proof (Forall_inv_tail Hpos) as Hr.
    pose proof node_sz_pos.
    exists m', (spec_coalesce_from E a s r).
    split; [assumption|]. split; [assumption|]. split.
    + rewrite footprint_cons in *. cbn [snd] in *.
      apply spec_coalesce_from_footprint; auto. lia.
    + apply spec_coalesce_from_length.
Qed.

(** X10. Coalescing a well-formed list twice is coalescing it once: in the
    list [coalesce] leaves no block ends where its list successor starts,
    and a second call from the same block writes nothing. *)
Theorem coalesce_twice fuel start m l :
  flist E m start l ->
  no_overlap E (map fst l) = true ->
  (List.length l < fuel)%nat ->
  exists m',
    coalesce E fuel start m = Some m' /\
    coalesce E fuel start m' = Some m' /\
    exists l', flist E m' start l' /\ no_adjacent E l' = true.
Proof.
  intros Hl Hno Hf. destruct l as [|[a s] r].
  - cbn [flist] in Hl. subst start. exists m.
    destruct fuel as [|k]; [simpl in Hf; lia|]. cbn.
    repeat split. exists []. now split.
  - assert (Ha : start = a) by (cbn [flist] in Hl; tauto). subst start.
    destruct (coalesce_refines r fuel a s m Hl Hno) as (m' & Hc & Hfl & _).
    { cbn [List.length] in Hf. lia. }
    pose proof (spec_coalesce_from_settled r a s) as Hset.
    pose proof (spec_coalesce_from_length r a s) as Hlen.
    exists m'. split; [assumption|]. split.
    + apply (coalesce_settled _ fuel a m' Hfl Hset).
      cbn [List.length] in Hf. lia.
    + eauto.
Qed.

(** *** Releases *)

Lemma my_free_list fuel p s l :
  get_magic E ((p - hdr_sz) mod W) (mem s) = MAGIC E ->
  flist E (mem s) (head s) l ->
  0 <= head s < W ->
  (p - hdr_sz) mod W <> 0 ->
  no_overlap E ((p - hdr_sz) mod W :: map fst l) = true ->
  (List.length l < fuel)%nat ->
  exists s',
    my_free E fuel p s = Done tt s' /\
    head s' = (p - hdr_sz) mod W /\
    flist E (mem s') (head s')
      (spec_coalesce_from E ((p - hdr_sz) mod W)
         (get_size E ((p - hdr_sz) mod W) (mem s)) l) /\
    (forall x, ~ covered E (((p - hdr_sz) mod W, 0) :: l) x ->
               mem s' x = mem s x).
Proof.
  set (h := (p - hdr_sz) mod W). intros Hmagic Hl Hhead Hh Hno Hf.
  set (m2 := set_next E h (head s) (set_size E h (get_size E h (mem s)) (mem s))).
  assert (Hfl2 : flist E m2 h ((h, get_size E h (mem s)) :: l)).
  { cbn [flist]. split; [reflexivity|]. split; [assumption|]. split.
    - unfold m2. rewrite get_size_set_next, get_size_set_size.
      apply Z.mod_small, get_size_range.
    - unfold m2 at 2. rewrite get_next_set_next, Z.mod_small by assumption.
      apply (flist_ext l (mem s)); [|assumption].
      intros x Hx. unfold m2. cbn [no_overlap] in Hno.
      apply andb_true_iff in Hno. destruct Hno as [Hno _].
      pose proof (covered_outside h l x Hno Hx) as Hout.
      rewrite set_next_outside by assumption.
      rewrite set_size_outside; [reflexivity|].
      pose proof (ok_next_lo E HE). pose proof (ok_next_hi E HE). lia. }
  destruct (coalesce_refines l fuel h _ m2 Hfl2 Hno Hf) as (m' & Hc & Hfl & Hfr).
  exists {| head := h; mem := m'; oscalls := oscalls s |}.
  unfold my_free. fold h. rewrite Hmagic, Z.eqb_refl. cbn [negb].
  fold m2. rewrite Hc. cbn [head mem].
  split; [reflexivity|]. split; [reflexivity|]. split; [exact Hfl|].
  intros x Hx. rewrite Hfr.
  - apply covered_cons_inv in Hx. destruct Hx as [Hxh _].
    unfold m2. rewrite set_next_outside by lia.
    apply set_size_outside.
    pose proof (ok_next_lo E HE). pose proof (ok_next_hi E HE). lia.
  - intros (c & Hc' & Hcx). apply Hx. exists c. split; assumption.
Qed.

(** X11. A [my_free] that passes the tag check adds at most one node to a
    well-formed free list, and adds none when the freed block ends where
    the old head starts: the two are merged. *)
Theorem my_free_node_count fuel p s l :
  let h := (p - hdr_sz) mod W in
  get_magic E h (mem s) = MAGIC E ->
  flist E (mem s) (head s) l ->
  0 < head s < W ->
  h <> 0 ->
  no_overlap E (h :: map fst l) = true ->
  (S (List.length l) < fuel)%nat ->
  exists s' c0 c1,
    my_free E fuel p s = Done tt s' /\
    value (number_of_free_nodes E fuel s) = Some c0 /\
    value (number_of_free_nodes E fuel s') = Some c1 /\
    c1 <= c0 + 1 /\
    (ptr_add E h ((get_size E h (mem s) + node_sz) mod W) = head s -> c1 <= c0).
Proof.
  intros h Hmagic Hl Hhead Hh Hno Hf.
  destruct (my_free_list fuel p s l Hmagic Hl ltac:(lia) Hh Hno ltac:(lia))
    as (s' & Hfree & Hhd & Hfl & _). fold h in Hhd, Hfl.
  pose proof (spec_coalesce_from_length l h (get_size E h (mem s))) as Hlen.
  exists s', (Z.of_nat (List.length l)),
    (Z.of_nat (List.length (spec_coalesce_from E h (get_size E h (mem s)) l))).
  split; [assumption|].
  unfold number_of_free_nodes.
  rewrite (heap_initialized s) by lia.
  rewrite (heap_initialized s') by congruence.
  rewrite (number_of_free_nodes_loop_flist _ fuel 0 _ _ Hl) by lia.
  rewrite (number_of_free_nodes_loop_flist _ fuel 0 _ _ Hfl) by lia.
  cbn [value]. split; [reflexivity|]. split; [reflexivity|]. split; [lia|].
  intros Hadj. destruct l as [|[b t] r].
  - cbn [flist] in Hl. lia.
  - cbn [flist] in Hl. destruct Hl as (Hb & _).
    cbn [spec_coalesce_from]. rewrite Hadj, Hb, Z.eqb_refl.
    pose proof (spec_coalesce_from_length r h
                  ((get_size E h (mem s) + (t + node_sz) mod W) mod W)).
    cbn [List.length]. lia.
Qed.

(** X12. Round trip at the head: when no block of a well-formed free list
    ends where its list successor starts, a [my_malloc(R)] served by the
    head block followed at once by [my_free] of the pointer gives back the
    free list that was there before, block for block. *)
Theorem malloc_free_restores_list fuel R s B sz rest :
  flist E (mem (snd (heap E s))) (fst (heap E s)) ((B, sz) :: rest) ->
  no_adjacent E ((B, sz) :: rest) = true ->
  node_sz = hdr_sz ->
  0 < B -> 0 <= R -> R + hdr_sz <= sz ->
  B + node_sz + sz <= W ->
  forallb (clear_of E B (B + node_sz + sz)) (map fst rest) = true ->
  no_overlap E (map fst rest) = true ->
  (S (List.length rest) < fuel)%nat ->
  exists s1 s2,
    my_malloc E fuel R s = Done (B + hdr_sz) s1 /\
    my_free E fuel (B + hdr_sz) s1 = Done tt s2 /\
    head s2 = fst (heap E s) /\
    flist E (mem s2) (head s2) ((B, sz) :: rest).
Proof.
  intros Hl Hna Heq HB HR HRS Hfoot Hclear Hno Hf.
  destruct (malloc_free_head fuel R s B sz rest Hl Heq HB HR HRS Hfoot Hclear Hno Hf)
    as (s1 & s2 & Hm & Hfree & Hhd & Hfl).
  exists s1, s2. split; [assumption|]. split; [assumption|].
  cbn [spec_coalesce] in Hfl. rewrite spec_coalesce_from_fixed in Hfl by assumption.
  cbn [flist] in Hl. destruct Hl as (HpB & _).
  rewrite Hhd. split; [now symmetry|assumption].
Qed.

Lemma apart_sym a b : apart E a b = apart E b a.
Proof. unfold apart. apply orb_comm. Qed.

Lemma no_overlap_insert l1 : forall c l2,
  no_overlap E (l1 ++ l2) = true ->
  forallb (apart E c) (l1 ++ l2) = true ->
  no_overlap E (l1 ++ c :: l2) = true.
Proof.
  induction l1 as [|a r IH]; intros c l2 Hno Hc; cbn [app no_overlap forallb] in *.
  - now rewrite Hc, Hno.
  - apply andb_true_iff in Hno. destruct Hno as [Ha Hno].
    apply andb_true_iff in Hc. destruct Hc as [Hca Hc].
    rewrite forallb_app in *. cbn [forallb].
    apply andb_true_iff in Ha. destruct Ha as [Ha1 Ha2].
    rewrite Ha1, Ha2, (apart_sym a c), Hca. cbn [andb].
    apply IH; [assumption|]. now rewrite forallb_app.
Qed.

Lemma clear_of_narrow lo hi lo' hi' l :
  lo <= lo' -> hi' <= hi ->
  forallb (clear_of E lo hi) l = true -> forallb (clear_of E lo' hi') l = true.
Proof.
  intros Hlo Hhi Hall. rewrite forallb_forall in *. intros c Hc.
  apply Hall, clear_of_spec in Hc. apply clear_of_spec. lia.
Qed.

(** X13. The price of a block taken further down the list: when
    [my_malloc(R)] is served by a block that is not the head and the pointer
    is released at once, the freed block goes to the head of the list and
    stays apart from its remainder, unless blocks happen to be adjacent in
    the new order; the list has one node more and [available_memory()] is
    lower by [sizeof(header_t)] than before the allocation. *)
Theorem malloc_free_inner_cost fuel R s l1 B sz l2 :
  let after := (B, R) :: l1 ++ (B + (R + hdr_sz), sz - (R + hdr_sz)) :: l2 in
  flist E (mem (snd (heap E s))) (fst (heap E s)) (l1 ++ (B, sz) :: l2) ->
  l1 <> [] ->
  forallb (unfit E R) l1 = true ->
  0 < B -> 0 <= R -> R + hdr_sz <= sz ->
  B + node_sz + sz <= W ->
  node_sz <= hdr_sz ->
  forallb (clear_of E B (B + node_sz + sz)) (map fst l1 ++ map fst l2) = true ->
  no_overlap E (map fst l1 ++ map fst l2) = true ->
  0 <= fst (heap E s) < W ->
  no_adjacent E after = true ->
  sum_sizes (l1 ++ (B, sz) :: l2) < W ->
  (S (List.length (l1 ++ (B, sz) :: l2)) < fuel)%nat ->
  exists s1 s2,
    my_malloc E fuel R s = Done (B + hdr_sz) s1 /\
    my_free E fuel (B + hdr_sz) s1 = Done tt s2 /\
    flist E (mem s2) (head s2) after /\
    value (available_memory E fuel s2) =
      option_map (fun n => n - hdr_sz) (value (available_memory E fuel s)) /\
    value (number_of_free_nodes E fuel s2) =
      option_map (fun c => c + 1) (value (number_of_free_nodes E fuel s)).
Proof.
  intros after Hl Hne Hu HB HR HRS Hfoot Hnh Hclear Hno Hhead Hna Hsum Hf.
  pose proof hdr_sz_pos as Hh. pose proof node_sz_pos as Hn.
  rewrite length_app in Hf. cbn [List.length] in Hf.
  destruct (my_malloc_list fuel R s l1 B sz l2 Hl Hu ltac:(lia) HB HR HRS
              Hfoot Hnh Hclear Hno) as (s1 & Hm & Hhd1 & Hl1 & Hsz1 & Hmg1).
  assert (Hhd1' : head s1 = fst (heap E s)) by (destruct l1; [congruence|exact Hhd1]).
  set (rem := B + (R + hdr_sz)) in *.
  assert (HhB : (B + hdr_sz - hdr_sz) mod W = B).
  { rewrite Z.add_simpl_r. apply Z.mod_small. lia. }
  destruct (my_free_list fuel (B + hdr_sz) s1
              (l1 ++ (rem, sz - (R + hdr_sz)) :: l2))
    as (s2 & Hfree & Hhd2 & Hl2 & _).
  - now rewrite HhB.
  - exact Hl1.
  - now rewrite Hhd1'.
  - rewrite HhB. lia.
  - rewrite HhB, map_app. cbn [map fst no_overlap].
    rewrite forallb_app. cbn [forallb].
    pose proof (clear_of_apart B (B + node_sz + sz) B
                  (map fst l1 ++ map fst l2) ltac:(lia) ltac:(lia) Hclear) as HaB.
    pose proof (clear_of_apart B (B + node_sz + sz) rem
                  (map fst l1 ++ map fst l2) ltac:(unfold rem; lia)
                  ltac:(unfold rem; lia) Hclear) as Har.
    rewrite forallb_app in HaB. apply andb_true_iff in HaB.
    destruct HaB as [HaB1 HaB2]. rewrite HaB1, HaB2.
    replace (apart E B rem) with true
      by (symmetry; apply apart_spec; unfold rem; lia).
    cbn [andb]. now apply no_overlap_insert.
  - rewrite length_app. cbn [List.length]. lia.
  - rewrite HhB in Hhd2, Hl2. rewrite Hsz1 in Hl2.
    rewrite spec_coalesce_from_fixed in Hl2 by exact Hna.
    exists s1, s2. split; [assumption|]. split; [assumption|].
    split; [exact Hl2|].
    pose proof (flist_sizes_range _ _ _ Hl) as Hrange.
    apply Forall_app in Hrange. destruct Hrange as [Hr1 Hr2].
    pose proof (Forall_inv Hr2) as Hrb. cbn [snd] in Hrb.
    apply Forall_inv_tail in Hr2.
    pose proof (sum_sizes_nonneg l1 Hr1). pose proof (sum_sizes_nonneg l2 Hr2).
    rewrite sum_sizes_app in Hsum. cbn [snd] in Hsum.
    unfold available_memory, number_of_free_nodes.
    rewrite (heap_initialized s2) by (rewrite Hhd2; lia).
    destruct (heap E s) as [p0 s0]. cbn [fst snd] in *.
    rewrite (available_memory_loop_flist _ fuel 0 _ _ Hl2)
      by (unfold after; cbn [List.length]; rewrite ?length_app;
          cbn [List.length]; lia).
    rewrite (available_memory_loop_flist _ fuel 0 _ _ Hl)
      by (rewrite ?length_app; cbn [List.length]; lia).
    rewrite (number_of_free_nodes_loop_flist _ fuel 0 _ _ Hl2)
      by (unfold after; cbn [List.length]; rewrite ?length_app;
          cbn [List.length]; lia).
    rewrite (number_of_free_nodes_loop_flist _ fuel 0 _ _ Hl)
      by (rewrite ?length_app; cbn [List.length]; lia).
    cbn [value option_map]. unfold after.
    change (sum_sizes ((B, R) :: ?l)) with (R + sum_sizes l).
    cbn [sum_sizes fold_right snd].
    fold (sum_sizes (l1 ++ (rem, sz - (R + hdr_sz)) :: l2)).
    fold (sum_sizes (l1 ++ (B, sz) :: l2)).
    rewrite !sum_sizes_app. cbn [snd List.length].
    rewrite !Z.add_0_l, !Z.mod_small by lia.
    rewrite !length_app. cbn [List.length].
    split; f_equal; lia.
Qed.

(** X14. Two allocations in a row out of the head block lie back to back:
    the second pointer is the first one plus [R1 + sizeof(header_t)], so
    the two payloads share no byte, and the head of the list is the
    remainder behind the second block. *)
Theorem my_malloc_back_to_back fuel R1 R2 s B sz rest :
  flist E (mem (snd (heap E s))) (fst (heap E s)) ((B, sz) :: rest) ->
  0 < B -> 0 <= R1 -> 0 <= R2 ->
  (R1 + hdr_sz) + (R2 + hdr_sz) <= sz ->
  B + node_sz + sz <= W ->
  node_sz <= hdr_sz ->
  forallb (clear_of E B (B + node_sz + sz)) (map fst rest) = true ->
  no_overlap E (map fst rest) = true ->
  (0 < fuel)%nat ->
  exists s1 s2,
    my_malloc E fuel R1 s = Done (B + hdr_sz) s1 /\
    my_malloc E fuel R2 s1 = Done (B + hdr_sz + (R1 + hdr_sz)) s2 /\
    flist E (mem s2) (head s2)
      ((B + (R1 + hdr_sz) + (R2 + hdr_sz),
        sz - (R1 + hdr_sz) - (R2 + hdr_sz)) :: rest).
Proof.
  intros Hl HB HR1 HR2 HRS Hfoot Hnh Hclear Hno Hf.
  pose proof hdr_sz_pos as Hh. pose proof node_sz_pos as Hn.
  destruct (my_malloc_list fuel R1 s [] B sz rest Hl eq_refl Hf HB HR1
              ltac:(lia) Hfoot Hnh Hclear Hno) as (s1 & Hm1 & Hhd1 & Hl1 & _).
  cbn [app] in Hhd1, Hl1.
  assert (Hheap : heap E s1 = (head s1, s1))
    by (apply heap_initialized; rewrite Hhd1; lia).
  destruct (my_malloc_list fuel R2 s1 [] (B + (R1 + hdr_sz))
              (sz - (R1 + hdr_sz)) rest) as (s2 & Hm2 & Hhd2 & Hl2 & _);
    try (assumption || lia).
  - rewrite Hheap. cbn [fst snd app]. exact Hl1.
  - reflexivity.
  - cbn [map app].
    apply (clear_of_narrow B (B + node_sz + sz)); [lia|lia|assumption].
  - exists s1, s2. split; [assumption|]. cbn [app] in Hhd2, Hl2.
    split.
    + rewrite Hm2. f_equal. lia.
    + exact Hl2.
Qed.

(** *** What the two entry points leave alone *)


(** X16. A [my_free] that passes the tag check writes only in the
    descriptor of the freed block and in the descriptors of the free list:
    every other byte, the rest of the freed payload included, is as
    before. *)
Theorem my_free_frame fuel p s l :
  let h := (p - hdr_sz) mod W in
  get_magic E h (mem s) = MAGIC E ->
  flist E (mem s) (head s) l ->
  0 <= head s < W ->
  h <> 0 ->
  no_overlap E (h :: map fst l) = true ->
  (List.length l < fuel)%nat ->
  exists s',
    my_free E fuel p s = Done tt s' /\
    oscalls s' = oscalls s /\
    (forall x, ~ covered E ((h, 0) :: l) x -> mem s' x = mem s x).
Proof.
  intros h Hmagic Hl Hhead Hh Hno Hf.
  destruct (my_free_list fuel p s l Hmagic Hl Hhead Hh Hno Hf)
    as (s' & Hfree & _ & _ & Hfr).
  exists s'. split; [assumption|]. split; [|exact Hfr].
  unfold my_free in Hfree. fold h in Hfree.
  rewrite Hmagic, Z.eqb_refl in Hfree. cbn [negb] in Hfree.
  destruct (coalesce E fuel h _) in Hfree; [|discriminate].
  injection Hfree as <-. reflexivity.
Qed.

End Proofs.

(** ** The claims on the 64-bit target *)

Lemma lp64_ok : env_ok lp64.
Proof. constructor; vm_compute; try lia; try (split; congruence); congruence. Qed.

(** Side conditions on concrete states: evaluate, then close what is left. *)
Ltac concrete :=
  first [ solve [cbn [List.length]; lia]
        | solve [vm_compute; repeat split; first [reflexivity | congruence]]
        | solve [vm_compute; intuition congruence] ].

(** The states above are the ones the calls really produce. *)
Lemma concrete_run :
  value (my_malloc lp64 4 100 s_init) = Some 1048592 /\
  value (my_malloc lp64 4 100 s_a) = Some 1048708 /\
  value (my_free lp64 4 1048592 s_b) = Some tt /\
  value (print_free_list lp64 4 s_c)
    = Some ("Free(100)->Free(3848)" ++ String (ascii_of_nat 10) EmptyString)%string /\
  value (my_malloc lp64 4 200 s_c) = Some 1048824 /\
  value (my_free lp64 4 1048824 s_d) = Some tt.
Proof. vm_compute. repeat split. Qed.

Lemma find_free_first_fit_witness :
  find_free lp64 4 200 0 0 s_c = Done (1048808, 1048576) (snd (heap lp64 s_c)).
Proof.
  apply (find_free_first_fit lp64 4 200 0 0 s_c [(1048576, 100)] 1048808 3848 []);
    concrete.
Defined.

Lemma my_malloc_no_fit_witness :
  my_malloc lp64 2 5000 s_fresh = Done 0 s_fresh.
Proof.
  apply (my_malloc_no_fit lp64 lp64_ok 2 5000 s_fresh [(1048576, 4080)]);
    concrete.
Defined.

(** C3 as stated fails when the arena is not initialised yet: no block can
    hold 4096 bytes, [my_malloc] returns [NULL], and [head] has moved from
    [NULL] to the fresh arena. *)
Lemma my_malloc_no_fit_counterexample :
  head s_init = 0 /\
  flist lp64 (mem (snd (heap lp64 s_init))) (fst (heap lp64 s_init))
        [(1048576, 4080)] /\
  forallb (unfit lp64 4096) [(1048576, 4080)] = true /\
  value (my_malloc lp64 2 4096 s_init) = Some 0 /\
  head (state_of (my_malloc lp64 2 4096 s_init) s_init) = 1048576 /\
  head (state_of (my_malloc lp64 2 4096 s_init) s_init) <> head s_init.
Proof. concrete. Qed.

(** Releasing the first block a second time in [s_c]: its tag has been
    overwritten by the [next] link, and the call dies. *)
Lemma my_free_tag_check_witness :
  my_free lp64 4 1048592 s_c = Aborted s_c.
Proof.
  apply (my_free_tag_check lp64 4 1048592 s_c). concrete.
Defined.

Lemma diagnostics_frame_witness :
  available_memory lp64 4 s_c = Done 3948 s_c /\
  number_of_free_nodes lp64 4 s_c = Done 2 s_c /\
  (exists out, print_free_list lp64 4 s_c = Done out s_c).
Proof.
  destruct (diagnostics_frame lp64 4 s_c [(1048576, 100); (1048808, 3848)])
    as (_ & Ha & Hn & Hp & Hs); [concrete..|].
  rewrite Hs in Ha, Hn, Hp by concrete. repeat split; assumption.
Defined.

(** In [s_a], after one [my_malloc(100)], the head is 116 bytes into the
    arena: [reset_heap()] calls [munmap] on that address, the page of the
    old arena (number 256) stays mapped, and the allocator moves to a second
    arena.  On the untouched arena [s_fresh], where [head] still is the
    address [mmap] answered, the same call does unmap it. *)
Lemma reset_heap_misses_arena_witness :
  head s_a = 1048692 /\
  oscalls (reset_heap lp64 s_a)
    = [Mmap 1048576 4096; Munmap 1048692 4096; Mmap 1052672 4096] /\
  live_pages 4096 (oscalls s_a) = [256] /\
  live_pages 4096 (oscalls (reset_heap lp64 s_a)) = [256; 257] /\
  live_pages 4096 (oscalls (reset_heap lp64 s_fresh)) = [257].
Proof.
  assert (H := reset_heap_misses_arena lp64 lp64_ok 4096 s_a).
  split; [concrete|]. split; [concrete|]. split; [concrete|].
  split; [|concrete].
  rewrite H by concrete. concrete.
Defined.

Lemma split_remainder_size_witness :
  exists s',
    split lp64 4064 0 1048576 s_fresh = Done (1052656, 1048576) s' /\
    get_size lp64 1052656 (mem s') = 0.
Proof.
  destruct (split_remainder_size lp64 lp64_ok 4064 0 1048576 s_fresh)
    as (s' & H1 & _ & H3); [concrete..|].
  exists s'. split; [exact H1|]. apply H3. concrete.
Defined.

(** C1 as stated fails at the exact fit: the fresh arena's block has size
    4080, a request of 4064 bytes makes [actual_size] 4080 as well, and the
    remainder is written with size 0. *)
Lemma split_exact_fit_counterexample :
  value (find_free lp64 2 4064 0 0 s_fresh) = Some (1048576, 0) /\
  get_size lp64 1048576 (mem s_fresh) = 4080 /\
  (4064 + sizeof_header_t lp64) mod wmod lp64 = 4080 /\
  value (split lp64 4064 0 1048576 s_fresh) = Some (1052656, 1048576) /\
  get_size lp64 1052656
    (mem (state_of (split lp64 4064 0 1048576 s_fresh) s_init)) = 0.
Proof. concrete. Qed.

Lemma my_malloc_splits_witness :
  exists s',
    my_malloc lp64 4 200 s_c = Done 1048824 s' /\
    get_size lp64 1049024 (mem s') = 3632 /\
    get_next lp64 1049024 (mem s') = 0 /\
    get_next lp64 1048576 (mem s') = 1049024 /\
    head s' = 1048576 /\
    get_size lp64 1048808 (mem s') = 200 /\
    get_magic lp64 1048808 (mem s') = 3735928559.
Proof.
  destruct (my_malloc_splits lp64 lp64_ok 4 200 s_c [(1048576, 100)] 1048808 3848 [])
    as (s' & H1 & H2 & H3 & _ & H5 & H6 & H7); [concrete..|].
  destruct H5 as [H5 H5']; [discriminate|].
  exists s'. repeat split; assumption.
Defined.

Lemma coalesce_forward_merge_witness :
  exists m',
    coalesce lp64 3 1048692 m_pushed = Some m' /\
    flist lp64 m' 1048692 [(1048692, 3964)].
Proof.
  destruct (coalesce_forward_merge lp64 lp64_ok 3 1048692 m_pushed
              [(1048692, 100); (1048808, 3848)])
    as (m' & H1 & H2 & _); [concrete..|].
  exists m'. split; [exact H1|exact H2].
Defined.

Lemma my_free_pushes_head_witness :
  exists s',
    my_free lp64 3 1048708 s_b = Done tt s' /\
    head s' = 1048692 /\
    flist lp64 (mem s') (head s') [(1048692, 3964)].
Proof.
  destruct (my_free_pushes_head lp64 lp64_ok 3 1048708 s_b [(1048808, 3848)])
    as (s' & m2 & H1 & _ & _ & _ & _ & H6 & H7 & _); [concrete..|].
  exists s'. split; [exact H1|]. split; [exact H6|exact H7].
Defined.

Lemma malloc_free_head_available_witness :
  exists p s1 s2 n0 n2,
    my_malloc lp64 4 100 s_init = Done p s1 /\ p <> 0 /\
    my_free lp64 4 p s1 = Done tt s2 /\
    value (available_memory lp64 4 s_init) = Some n0 /\
    value (available_memory lp64 4 s2) = Some n2 /\
    n0 <= n2.
Proof.
  apply (malloc_free_head_available lp64 lp64_ok 4 100 s_init 1048576 4080 []);
    concrete.
Defined.

(** C8 as stated fails when the block is not taken from the head of the
    list: in [s_c] the request for 200 bytes is served by the second block;
    the released block becomes the head, does not touch its list successor,
    and the free list has lost the 16 bytes of a header. *)
Lemma malloc_free_counterexample :
  value (available_memory lp64 4 s_c) = Some 3948 /\
  value (my_malloc lp64 4 200 s_c) = Some 1048824 /\
  value (my_free lp64 4 1048824 s_d) = Some tt /\
  value (available_memory lp64 4 s_e) = Some 3932 /\
  ~ (3948 <= 3932).
Proof. concrete. Qed.

(** ** The further properties on the 64-bit target *)

Ltac concrete' :=
  first [ concrete
        | solve [vm_compute; lia]
        | solve [cbn; lia] ].

Lemma heap_twice_witness :
  fst (heap lp64 s_init) <> 0 /\
  heap lp64 (snd (heap lp64 s_init)) = heap lp64 s_init.
Proof.
  destruct (heap_twice lp64 lp64_ok s_init) as (H1 & H2 & _). now split.
Defined.

Lemma reset_heap_then_measure_witness :
  value (available_memory lp64 2 (reset_heap lp64 s_c)) = Some 4080 /\
  value (number_of_free_nodes lp64 2 (reset_heap lp64 s_c)) = Some 1.
Proof.
  apply (reset_heap_then_measure lp64 lp64_ok 2 s_c). lia.
Defined.

Lemma print_free_list_text_witness :
  print_free_list lp64 4 s_c
    = Done ("Free(100)->Free(3848)" ++ String (ascii_of_nat 10) EmptyString)%string
           (snd (heap lp64 s_c)).
Proof.
  apply (print_free_list_text lp64 4 s_c [(1048576, 100); (1048808, 3848)]);
    concrete'.
Defined.

Lemma find_free_no_fit_witness :
  find_free lp64 4 5000 7 9 s_c = Done (7, 9) (snd (heap lp64 s_c)).
Proof.
  apply (find_free_no_fit lp64 4 5000 7 9 s_c [(1048576, 100); (1048808, 3848)]);
    concrete'.
Defined.

Lemma my_malloc_first_call_witness :
  my_malloc lp64 2 4081 s_init = Done 0 (snd (heap lp64 s_init)) /\
  exists s', my_malloc lp64 2 4064 s_init = Done 1048592 s'.
Proof.
  destruct (my_malloc_first_call lp64 lp64_ok 2 4081 s_init) as [H1 _];
    [concrete'..|].
  destruct (my_malloc_first_call lp64 lp64_ok 2 4064 s_init) as [_ H2];
    [concrete'..|].
  split; [apply H1; concrete'|].
  destruct H2 as (s' & H2 & _); [concrete'|]. now exists s'.
Defined.

(** In [s_c] the head block has 100 bytes and a live block follows it at
    1048692: a request for 100 bytes is served from the head block, and the
    remainder's descriptor lands on the header of the live block. *)
Lemma my_malloc_overruns_block_witness :
  exists s',
    my_malloc lp64 2 100 s_c = Done 1048592 s' /\
    head s' = 1048692 /\
    get_size lp64 (head s') (mem s') = 18446744073709551600.
Proof.
  destruct (my_malloc_overruns_block lp64 lp64_ok 2 100 s_c 1048576 100
              [(1048808, 3848)])
    as (s' & H1 & H2 & H3 & _); [concrete'..|].
  exists s'. split; [exact H1|]. split; [exact H2|exact H3].
Defined.


Lemma my_malloc_accounting_witness :
  exists s',
    my_malloc lp64 4 200 s_c = Done 1048824 s' /\
    flist lp64 (mem s') (head s') [(1048576, 100); (1049024, 3632)] /\
    value (available_memory lp64 4 s') = Some 3732 /\
    value (number_of_free_nodes lp64 4 s') = Some 2.
Proof.
  destruct (my_malloc_accounting lp64 lp64_ok 4 200 s_c [(1048576, 100)]
              1048808 3848 [])
    as (s' & H1 & H2 & H3 & H4 & H5); [concrete'..|].
  exists s'. split; [exact H1|]. split; [exact H2|].
  rewrite H3, H5, H4. split; [reflexivity|]. concrete'.
Defined.

Lemma coalesce_keeps_footprint_witness :
  exists m' l',
    coalesce lp64 3 1048692 m_pushed = Some m' /\
    flist lp64 m' 1048692 l' /\
    footprint lp64 l' = 3980 /\
    (List.length l' <= 2)%nat.
Proof.
  destruct (coalesce_keeps_footprint lp64 lp64_ok 3 1048692 m_pushed
              [(1048692, 100); (1048808, 3848)])
    as (m' & l' & H1 & H2 & H3 & H4); [concrete'..|].
  exists m', l'. repeat split; assumption.
Defined.

Lemma coalesce_twice_witness :
  exists m',
    coalesce lp64 3 1048692 m_pushed = Some m' /\
    coalesce lp64 3 1048692 m' = Some m'.
Proof.
  destruct (coalesce_twice lp64 lp64_ok 3 1048692 m_pushed
              [(1048692, 100); (1048808, 3848)])
    as (m' & H1 & H2 & _); [concrete'..|].
  exists m'. split; assumption.
Defined.

Lemma my_free_node_count_witness :
  exists s' c1,
    my_free lp64 3 1048708 s_b = Done tt s' /\
    value (number_of_free_nodes lp64 3 s_b) = Some 1 /\
    value (number_of_free_nodes lp64 3 s') = Some c1 /\
    c1 <= 1.
Proof.
  destruct (my_free_node_count lp64 lp64_ok 3 1048708 s_b [(1048808, 3848)])
    as (s' & c0 & c1 & H1 & H2 & H3 & _ & H5); [concrete'..|].
  assert (Hc0 : c0 = 1).
  { assert (H : value (number_of_free_nodes lp64 3 s_b) = Some 1) by concrete'.
    congruence. }
  exists s', c1. split; [exact H1|]. split; [concrete'|]. split; [exact H3|].
  rewrite <- Hc0. apply H5. concrete'.
Defined.

Lemma malloc_free_restores_list_witness :
  exists s1 s2,
    my_malloc lp64 4 100 s_init = Done 1048592 s1 /\
    my_free lp64 4 1048592 s1 = Done tt s2 /\
    flist lp64 (mem s2) (head s2) [(1048576, 4080)].
Proof.
  destruct (malloc_free_restores_list lp64 lp64_ok 4 100 s_init 1048576 4080 [])
    as (s1 & s2 & H1 & H2 & _ & H4); [concrete'..|].
  exists s1, s2. split; [exact H1|]. split; [exact H2|exact H4].
Defined.

Lemma malloc_free_inner_cost_witness :
  exists s1 s2,
    my_malloc lp64 4 200 s_c = Done 1048824 s1 /\
    my_free lp64 4 1048824 s1 = Done tt s2 /\
    flist lp64 (mem s2) (head s2)
          [(1048808, 200); (1048576, 100); (1049024, 3632)] /\
    value (available_memory lp64 4 s2) = Some 3932 /\
    value (number_of_free_nodes lp64 4 s2) = Some 3.
Proof.
  destruct (malloc_free_inner_cost lp64 lp64_ok 4 200 s_c [(1048576, 100)]
              1048808 3848 [])
    as (s1 & s2 & H1 & H2 & H3 & H4 & H5); [concrete'..|].
  exists s1, s2. split; [exact H1|]. split; [exact H2|]. split; [exact H3|].
  rewrite H4, H5. split; concrete'.
Defined.

Lemma my_malloc_back_to_back_witness :
  exists s1 s2,
    my_malloc lp64 2 100 s_init = Done 1048592 s1 /\
    my_malloc lp64 2 100 s1 = Done 1048708 s2 /\
    flist lp64 (mem s2) (head s2) [(1048808, 3848)].
Proof.
  destruct (my_malloc_back_to_back lp64 lp64_ok 2 100 100 s_init 1048576 4080 [])
    as (s1 & s2 & H1 & H2 & H3); [concrete'..|].
  exists s1, s2. split; [exact H1|]. split; [exact H2|exact H3].
Defined.


Lemma my_free_frame_witness :
  exists s',
    my_free lp64 3 1048708 s_b = Done tt s' /\
    (forall x, 1048592 <= x < 1048692 -> mem s' x = mem s_b x).
Proof.
  destruct (my_free_frame lp64 lp64_ok 3 1048708 s_b [(1048808, 3848)])
    as (s' & H1 & _ & H3); [concrete'..|].
  exists s'. split; [exact H1|].
  intros x Hx. apply H3. intros (c & Hc & Hcx).
  cbn in Hc. destruct Hc as [<-|[<-|[]]]; cbn in Hcx; lia.
Defined.
